(** * AADS stats scraper: the scrape-event pipeline and the leaderboard reader

    A shallow embedding of [supabase/functions/scrape-event/index.ts] (the
    edge function that discovers the matches of an event, scrapes the two
    recap pages of every match, builds one statistics row per player and
    upserts it) and of the leaderboard part of the stats function, followed
    by the properties the specification states about them.

    Conventions of the embedding:
    - JSON scalars that the code only copies or tests for truthiness are
      [jsval]s; occurrence counts of a score distribution are integers ([Z]);
    - a JavaScript object used as a dictionary is a [gmap string _];
    - the [try { ... } catch] around one match is an exception-and-state
      monad [Exec]; a thrown [Error] is its message;
    - the outside world (auth service, discovery endpoint, recap pages, the
      store's verdict on a write) is a record [Env] of responses, and every
      outgoing call is appended to a log so that "no call was made" can be
      stated. *)

From Stdlib Require Import ZArith QArith String Ascii List Lia.
From Stdlib Require Import Permutation Sorted.
From stdpp Require Import gmap strings list fin_maps pretty.

Local Open Scope string_scope.
Local Open Scope Z_scope.

(** ** JavaScript values *)

Module JS.

(** The scalars that [JSON.parse] can put in a field, plus [undefined]
    for a field that is not there. *)
Inductive jsval : Type :=
| JUndefined
| JNull
| JBool (b : bool)
| JNum (q : Q)
| JStr (s : string).

(** ToBoolean: [undefined], [null], [false], [0] and the empty string are
    falsy. *)
Definition truthy (v : jsval) : bool :=
  match v with
  | JUndefined | JNull => false
  | JBool b => b
  | JNum q => negb (Qnum q =? 0)%Z
  | JStr s => negb (String.eqb s "")
  end.

(** [a || b] *)
Definition or (a b : jsval) : jsval := if truthy a then a else b.

(** What [Math.max] returns: an integer here, or [-Infinity]. *)
Inductive number : Type :=
| NegInfinity
| Fin (z : Z).

Definition max2 (a b : number) : number :=
  match a, b with
  | NegInfinity, _ => b
  | _, NegInfinity => a
  | Fin x, Fin y => Fin (Z.max x y)
  end.

(** [Math.max(...xs)]: the fold starts from [-Infinity], which is the
    result for no argument at all. *)
Definition Math_max (xs : list Z) : number :=
  foldr (λ x acc, max2 (Fin x) acc) NegInfinity xs.

(** *** [parseInt] with no radix argument *)

Definition is_white_space (c : ascii) : bool :=
  let n := nat_of_ascii c in
  ((9 <=? n) && (n <=? 13))%nat || (n =? 32)%nat.

Fixpoint skip_white_space (s : string) : string :=
  match s with
  | String c s' => if is_white_space c then skip_white_space s' else s
  | EmptyString => s
  end.

Definition digit_value (radix : Z) (c : ascii) : option Z :=
  let n := Z.of_nat (nat_of_ascii c) in
  let v :=
    if (48 <=? n) && (n <=? 57) then Some (n - 48)
    else if (97 <=? n) && (n <=? 122) then Some (n - 87)
    else if (65 <=? n) && (n <=? 90) then Some (n - 55)
    else None in
  match v with
  | Some d => if d <? radix then Some d else None
  | None => None
  end.

(** The longest prefix of digits, read in [radix]; [None] when the prefix
    is empty. *)
Fixpoint digits (radix : Z) (s : string) (acc : option Z) : option Z :=
  match s with
  | String c s' =>
      match digit_value radix c with
      | Some d => digits radix s' (Some (radix * default 0 acc + d))
      | None => acc
      end
  | EmptyString => acc
  end.

(** [parseInt(s)]; [None] is [NaN]. *)
Definition parseInt (s : string) : option Z :=
  let s1 := skip_white_space s in
  let '(sign, s2) :=
    match s1 with
    | String "-" r => (-1, r)
    | String "+" r => (1, r)
    | _ => (1, s1)
    end in
  let '(radix, s3) :=
    match s2 with
    | String "0" (String "x" r) | String "0" (String "X" r) => (16, r)
    | _ => (10, s2)
    end in
  match digits radix s3 None with
  | Some n => Some (sign * n)
  | None => None
  end.

(** The property names that an object of V8 inherits from
    [Object.prototype]. A runtime may trim the list (some remove
    [__proto__]), which is why the world below carries its own. *)
Definition Object_prototype_names : list string :=
  ["constructor"; "hasOwnProperty"; "isPrototypeOf"; "propertyIsEnumerable";
   "toLocaleString"; "toString"; "valueOf"; "__defineGetter__";
   "__defineSetter__"; "__lookupGetter__"; "__lookupSetter__"; "__proto__"].

End JS.

Import JS.

(** ** The payloads of one match *)

(** One entry of [props.players] of the players page. *)
Record Player : Type := mkPlayer {
  p_name : string;
  p_total_wins : jsval;
  p_total_games : jsval;
  p_average_01 : jsval;
  p_card_link : jsval;
}.

(** One entry of [props.first_nine]. *)
Record FirstNine : Type := mkFirstNine {
  fn_average : jsval;
}.

(** One entry of [props.checkout_stats]. *)
Record Checkout : Type := mkCheckout {
  co_efficiency : jsval;
  co_opportunities : jsval;
  co_hit : jsval;
  co_highest : jsval;
  co_average : jsval;
}.

(** [{}]: every field reads as [undefined]. *)
Definition empty_first_nine : FirstNine := mkFirstNine JUndefined.
Definition empty_checkout : Checkout :=
  mkCheckout JUndefined JUndefined JUndefined JUndefined JUndefined.

(** [props] of the counts page after the three [|| []] defaults. An entry
    that is [null] in the array is [None]. *)
Record Counts : Type := mkCounts {
  distribution : list (option (gmap string Z));
  first_nine : list (option FirstNine);
  checkout_stats : list (option Checkout);
}.

(** ** The row written for one player of one match *)

Record Row : Type := mkRow {
  user_id : string;
  name : string;
  match_id : string;
  event_name : string;
  legs_won : jsval;
  legs_played : jsval;
  average : jsval;
  first_nine_avg : jsval;
  count_180s : Z;
  count_140_plus : Z;
  count_100_plus : Z;
  highest_score : number;
  checkout_efficiency : jsval;
  checkout_opportunities : jsval;
  checkouts_hit : jsval;
  highest_checkout : jsval;
  avg_finish : jsval;
  card_link : jsval;
}.

(** ** Record building (the body of the loop over players) *)

(** [if (dist[k]) acc += dist[k]] *)
Definition add_if_truthy (dist : gmap string Z) (k : string) (acc : Z) : Z :=
  match dist !! k with
  | Some v => if v =? 0 then acc else acc + v
  | None => acc
  end.

(** [dist[k] || 0] *)
Definition or_zero (dist : gmap string Z) (k : string) : Z :=
  match dist !! k with
  | Some v => if v =? 0 then 0 else v
  | None => 0
  end.

Definition calc_count_180s (dist : gmap string Z) : Z := or_zero dist "180".

Definition calc_count_140_plus (dist : gmap string Z) : Z :=
  let c := 0 in
  let c := add_if_truthy dist "140" c in
  let c := add_if_truthy dist "141" c in
  let c := add_if_truthy dist "160" c in
  let c := add_if_truthy dist "171" c in
  c + calc_count_180s dist.

Definition calc_count_100_plus (dist : gmap string Z) : Z :=
  or_zero dist "100" + calc_count_140_plus dist.

(** [Object.keys(dist)] *)
Definition Object_keys (dist : gmap string Z) : list string :=
  (map_to_list dist).*1.

(** [parseInt(k) || 0] *)
Definition key_score (k : string) : Z :=
  match parseInt k with
  | Some n => if n =? 0 then 0 else n
  | None => 0
  end.

(** [Math.max(...Object.keys(dist).map(k => parseInt(k) || 0))] *)
Definition calc_highest_score (dist : gmap string Z) : number :=
  Math_max (key_score <$> Object_keys dist).

(** [a[i] || dflt] for an array of objects. *)
Definition at_or {A} (a : list (option A)) (i : nat) (dflt : A) : A :=
  default dflt (mjoin (a !! i)).

(** The record literal of the loop body. *)
Definition build_record (user ev matchId : string) (counts : Counts)
    (i : nat) (player : Player) : Row :=
  let firstNineStats := at_or (first_nine counts) i empty_first_nine in
  let checkoutData := at_or (checkout_stats counts) i empty_checkout in
  let dist := at_or (distribution counts) i ∅ in
  {| user_id := user;
     name := p_name player;
     match_id := matchId;
     event_name := ev;
     legs_won := p_total_wins player;
     legs_played := p_total_games player;
     average := p_average_01 player;
     first_nine_avg := JS.or (fn_average firstNineStats) JNull;
     count_180s := calc_count_180s dist;
     count_140_plus := calc_count_140_plus dist;
     count_100_plus := calc_count_100_plus dist;
     highest_score := calc_highest_score dist;
     checkout_efficiency := JS.or (co_efficiency checkoutData) JNull;
     checkout_opportunities := JS.or (co_opportunities checkoutData) (JNum 0);
     checkouts_hit := JS.or (co_hit checkoutData) (JNum 0);
     highest_checkout := JS.or (co_highest checkoutData) JNull;
     avg_finish := JS.or (co_average checkoutData) JNull;
     card_link := JS.or (p_card_link player) JNull |}.

(** ** The outside world *)

(** The result of one [fetch]: the promise rejects, or a response with a
    status and a payload arrives. *)
Inductive Fetched (A : Type) : Type :=
| NetworkError (msg : string)
| Http (status : Z) (payload : A).
Arguments NetworkError {A} msg.
Arguments Http {A} status payload.

(** [response.ok] *)
Definition ok (status : Z) : bool := (200 <=? status) && (status <=? 299).

(** What a recap page holds: no [data-page="..."] attribute at all, an
    attribute whose text [JSON.parse] (or the access to [props]) rejects
    with a message, or the parsed [props] after their [|| []] defaults. *)
Inductive Document (A : Type) : Type :=
| NoInertia
| Malformed (msg : string)
| Parsed (props : A).
Arguments NoInertia {A}.
Arguments Malformed {A} msg.
Arguments Parsed {A} props.

(** The discovery payload: [payload.sections[].segments[].match_id]. *)
Record Segment : Type := mkSegment {
  seg_match_id : option string;
}.

Record EventSection : Type := mkSection {
  segments : option (list Segment);
}.

Record Api2Data : Type := mkApi2Data {
  sections : option (list EventSection);
}.

(** One outgoing call of the function. *)
Inductive Call : Type :=
| GetUser
| Discover (eventId : string)
| FetchPlayers (matchId : string)
| FetchCounts (matchId : string)
| Upsert (record : Row).

(** Per-match work: the two page fetches and the writes. *)
Definition is_downstream (c : Call) : bool :=
  match c with
  | FetchPlayers _ | FetchCounts _ | Upsert _ => true
  | GetUser | Discover _ => false
  end.

Record Env : Type := mkEnv {
  (** [user.id] of [auth.getUser()], [None] for no user *)
  get_user : option string;
  (** the discovery endpoint, by event id; [inl] when [.json()] throws *)
  api2 : string → Fetched (string + Api2Data);
  (** [recap.dartconnect.com/players/<matchId>] *)
  players_page : string → Fetched (Document (list (option Player)));
  (** [recap.dartconnect.com/counts/<matchId>] *)
  counts_page : string → Fetched (Document Counts);
  (** the [error.message] the store answers an upsert with, if any *)
  upsert_error : Row → option string;
  (** the property names that every object of the runtime inherits (those
      of [Object.prototype]); each reads as a function or an object *)
  object_prototype : list string;
}.

(** ** The store *)

(** The columns of the unique index [aads_players_match_unique]. *)
Definition row_key (r : Row) : string * string * string * string :=
  (user_id r, event_name r, match_id r, name r).

(** Modelled from the spec: the store's upsert on conflict
    [user_id,event_name,match_id,name], which lives in the database and not
    in this repository. A row with the same key is replaced as a whole, in
    place; otherwise the row is added. *)
Fixpoint upsert (r : Row) (t : list Row) : list Row :=
  match t with
  | [] => [r]
  | x :: t' =>
      if decide (row_key x = row_key r) then r :: t' else x :: upsert r t'
  end.

Definition keys (t : list Row) : list (string * string * string * string) :=
  row_key <$> t.

(** The row stored under a key. *)
Definition find_row (k : string * string * string * string) (t : list Row)
    : option Row :=
  List.find (λ x, bool_decide (row_key x = k)) t.

(** ** State of one invocation *)

Record World : Type := mkWorld {
  table : list Row;
  calls : list Call;
}.

(** One entry of [playerSummary]. *)
Record Tally : Type := mkTally {
  match_count : nat;
  tally_180s : Z;
}.

Record State : Type := mkState {
  world : World;
  successful : nat;
  failed : nat;
  errors : list string;
  (** the own properties of the object [playerSummary] *)
  playerSummary : gmap string Tally;
}.

Definition init_state (w : World) : State :=
  {| world := w; successful := 0; failed := 0; errors := [];
     playerSummary := ∅ |}.

Definition with_world (f : World → World) (st : State) : State :=
  {| world := f (world st); successful := successful st;
     failed := failed st; errors := errors st;
     playerSummary := playerSummary st |}.

Definition log_call (c : Call) (w : World) : World :=
  {| table := table w; calls := calls w ++ [c] |}.

Definition write_row (r : Row) (w : World) : World :=
  {| table := upsert r (table w); calls := calls w |}.

(** ** The body of [try]: state and exceptions *)

(** A computation that may throw an [Error] (its message, [inl]) and
    changes the state either way. *)
Definition Exec (A : Type) : Type := State → State * (string + A).

Definition ret {A} (a : A) : Exec A := λ st, (st, inr a).

Definition throw {A} (msg : string) : Exec A := λ st, (st, inl msg).

Definition bind {A B} (c : Exec A) (k : A → Exec B) : Exec B :=
  λ st,
    match c st with
    | (st', inr a) => k a st'
    | (st', inl msg) => (st', inl msg)
    end.

Definition modify (f : State → State) : Exec unit := λ st, (f st, inr tt).

Notation "'do' x <- c ; k" := (bind c (λ x, k))
  (at level 10, x name, c at level 100, k at level 200,
   format "'[v' 'do'  x  <-  c ; '/' k ']'").
Notation "'do_' c ; k" := (bind c (λ _, k))
  (at level 10, c at level 100, k at level 200,
   format "'[v' 'do_'  c ; '/' k ']'").

(** [fetch(url)], the [ok] check, the [data-page] regex and [JSON.parse]
    of one recap page; [what] is ["players"] or ["counts"]. *)
Definition fetch_document {A} (c : Call) (r : Fetched (Document A))
    (what : string) : Exec A :=
  do_ modify (with_world (log_call c));
  match r with
  | NetworkError msg => throw msg
  | Http status doc =>
      if negb (ok status)
      then throw ("Failed to fetch " ++ what ++ " data: " ++ pretty status)
      else
        match doc with
        | NoInertia =>
            throw ("Could not find Inertia data in " ++ what ++ " page")
        | Malformed msg => throw msg
        | Parsed props => ret props
        end
  end.

(** [playerSummary] after the three statements that follow a successful
    upsert. [playerSummary] is a plain [{}], and the map holds its own
    entries. With an own entry [playerSummary[nm]] is that entry, which is
    incremented. With none, an inherited name reads as the inherited value,
    which is truthy: no entry is made and the two increments land on that
    value, outside [playerSummary]. Any other name gets a fresh
    [{ match_count: 0, count_180s: 0 }], which is then incremented. *)
Definition add_tally (inherited : list string) (nm : string) (c180 : Z)
    (m : gmap string Tally) : gmap string Tally :=
  match m !! nm with
  | Some t => <[nm := mkTally (S (match_count t)) (tally_180s t + c180)]> m
  | None =>
      if bool_decide (nm ∈ inherited) then m
      else <[nm := mkTally (S 0) (0 + c180)]> m
  end.

(** The three statements after a successful upsert. *)
Definition track_summary (inherited : list string) (nm : string) (c180 : Z)
    (st : State) : State :=
  {| world := world st; successful := successful st; failed := failed st;
     errors := errors st;
     playerSummary := add_tally inherited nm c180 (playerSummary st) |}.

Section Pipeline.

Variable env : Env.
Variables user ev : string.

(** One turn of [for (let i = 0; i < players.length; i++)]. A [null]
    entry of [players] makes [player.name] throw. *)
Definition process_player (matchId : string) (counts : Counts) (i : nat)
    (player : option Player) : Exec unit :=
  match player with
  | None => throw "Cannot read properties of null (reading 'name')"
  | Some p =>
      let record := build_record user ev matchId counts i p in
      do_ modify (with_world (log_call (Upsert record)));
      match upsert_error env record with
      | Some msg => throw ("Supabase upsert failed: " ++ msg)
      | None =>
          do_ modify (with_world (write_row record));
          modify (track_summary (object_prototype env) (p_name p)
                    (count_180s record))
      end
  end.

Fixpoint process_players (matchId : string) (counts : Counts) (i : nat)
    (players : list (option Player)) : Exec unit :=
  match players with
  | [] => ret tt
  | player :: rest =>
      do_ process_player matchId counts i player;
      process_players matchId counts (S i) rest
  end.

Definition incr_successful (st : State) : State :=
  {| world := world st; successful := S (successful st);
     failed := failed st; errors := errors st;
     playerSummary := playerSummary st |}.

(** The [try] block of one match. *)
Definition scrape_match (matchId : string) : Exec unit :=
  do players <- fetch_document (FetchPlayers matchId)
                  (players_page env matchId) "players";
  do counts <- fetch_document (FetchCounts matchId)
                 (counts_page env matchId) "counts";
  do_ process_players matchId counts 0 players;
  modify incr_successful.

(** The [catch] block. *)
Definition record_failure (matchId msg : string) (st : State) : State :=
  {| world := world st; successful := successful st;
     failed := S (failed st);
     errors := errors st ++ ["Match " ++ matchId ++ ": " ++ msg];
     playerSummary := playerSummary st |}.

(** One turn of [for (const matchId of matchIds)]. *)
Definition match_step (st : State) (matchId : string) : State :=
  match scrape_match matchId st with
  | (st', inr _) => st'
  | (st', inl msg) => record_failure matchId msg st'
  end.

Definition scrape_matches (matchIds : list string) (st : State) : State :=
  foldl match_step st matchIds.

End Pipeline.

(** ** The request and the response *)

(** The two fields the handler reads from the JSON body; [None] for a
    field that is missing or [null]. *)
Record Body : Type := mkBody {
  req_event_url : option string;
  req_event_name : option string;
}.

(** [body] is [inl msg] when [req.json()] throws. *)
Record Request : Type := mkRequest {
  method : string;
  body : string + Body;
}.

(** [!x] for a field of the body. *)
Definition missing (x : option string) : bool :=
  match x with
  | Some s => String.eqb s ""
  | None => true
  end.

Definition present_or_missing (x : option string) : string :=
  if missing x then "missing" else "present".

Record RunSummary : Type := mkSummary {
  total_matches : nat;
  sm_successful : nat;
  sm_failed : nat;
  total_players : nat;
  players : gmap string Tally;
  (** [errors.length > 0 ? errors : undefined] *)
  sm_errors : option (list string);
}.

Inductive Response : Type :=
| Preflight
| MissingFields (error : string) (received : Body)
| Failure (status : Z) (error : string)
| Success (summary : RunSummary).

(** *** [event_url.match(/event\/([^\/]+)/)] *)

Fixpoint drop_prefix (p s : string) : option string :=
  match p, s with
  | EmptyString, _ => Some s
  | String a p', String b s' =>
      if Ascii.eqb a b then drop_prefix p' s' else None
  | String _ _, EmptyString => None
  end.

(** [[^\/]*], greedy *)
Fixpoint take_non_slash (s : string) : string :=
  match s with
  | String c s' =>
      if Ascii.eqb c "/" then EmptyString else String c (take_non_slash s')
  | EmptyString => EmptyString
  end.

(** The capture group of the leftmost match. *)
Fixpoint match_event (s : string) : option string :=
  match s with
  | EmptyString => None
  | String _ s' =>
      match drop_prefix "event/" s with
      | Some rest =>
          match take_non_slash rest with
          | EmptyString => match_event s'
          | token => Some token
          end
      | None => match_event s'
      end
  end.

(** *** Discovery *)

(** [if (segment.match_id) matchIds.push(segment.match_id)] *)
Definition segment_ids (seg : Segment) : list string :=
  match seg_match_id seg with
  | Some id => if String.eqb id "" then [] else [id]
  | None => []
  end.

Definition section_ids (sec : EventSection) : list string :=
  match segments sec with
  | Some segs => segs ≫= segment_ids
  | None => []
  end.

Definition collect_match_ids (data : Api2Data) : list string :=
  match sections data with
  | Some secs => secs ≫= section_ids
  | None => []
  end.

(** *** The handler *)

Definition summary_of (matchIds : list string) (st : State) : RunSummary :=
  {| total_matches := length matchIds;
     sm_successful := successful st;
     sm_failed := failed st;
     total_players := size (playerSummary st);
     players := playerSummary st;
     sm_errors :=
       if (0 <? length (errors st))%nat then Some (errors st) else None |}.

(** The part of the handler after the event id is known: discovery, the
    loop over the matches and the summary. Whatever is thrown here reaches
    the outer [catch] and becomes a 500. *)
Definition scrape_event (env : Env) (user ev eventId : string) (w : World)
    : World * Response :=
  let w := log_call (Discover eventId) w in
  match api2 env eventId with
  | NetworkError msg => (w, Failure 500 msg)
  | Http status payload =>
      if negb (ok status)
      then (w, Failure 500 ("API2 request failed: " ++ pretty status))
      else
        match payload with
        | inl msg => (w, Failure 500 msg)
        | inr api2Data =>
            let matchIds := collect_match_ids api2Data in
            match matchIds with
            | [] => (w, Failure 400 "No matches found in event")
            | _ =>
                let st := scrape_matches env user ev matchIds (init_state w) in
                (world st, Success (summary_of matchIds st))
            end
        end
  end.

(** [Deno.serve(async (req) => ...)] *)
Definition handler (env : Env) (req : Request) (w : World)
    : World * Response :=
  if String.eqb (method req) "OPTIONS" then (w, Preflight)
  else
    match body req with
    | inl msg => (w, Failure 500 msg)
    | inr b =>
        if missing (req_event_url b) || missing (req_event_name b)
        then
          (w, MissingFields
                ("Missing required fields. event_url: "
                   ++ present_or_missing (req_event_url b)
                   ++ ", event_name: "
                   ++ present_or_missing (req_event_name b)) b)
        else
          let event_url := default "" (req_event_url b) in
          let ev := default "" (req_event_name b) in
          let w := log_call GetUser w in
          match get_user env with
          | None => (w, Failure 401 "Not authenticated")
          | Some user =>
              match match_event event_url with
              | None => (w, Failure 400 "Invalid event URL format")
              | Some eventId => scrape_event env user ev eventId w
              end
          end
    end.

(** *** The response body as JSON *)

#[local] Unset Elimination Schemes.
Inductive json : Type :=
| JsonNull
| JsonBool (b : bool)
| JsonNumber (n : Z)
| JsonString (s : string)
| JsonArray (items : list json)
| JsonObject (fields : list (string * json)).
#[local] Set Elimination Schemes.

Definition tally_json (t : Tally) : json :=
  JsonObject [("match_count", JsonNumber (Z.of_nat (match_count t)));
              ("count_180s", JsonNumber (tally_180s t))].

Definition body_json (b : Body) : json :=
  JsonObject
    (match req_event_url b with
     | Some s => [("event_url", JsonString s)]
     | None => []
     end ++
     match req_event_name b with
     | Some s => [("event_name", JsonString s)]
     | None => []
     end)%list.

(** [JSON.stringify] of the summary: a field whose value is [undefined]
    is left out. *)
Definition summary_json (s : RunSummary) : json :=
  JsonObject
    ([("success", JsonBool true);
      ("total_matches", JsonNumber (Z.of_nat (total_matches s)));
      ("successful", JsonNumber (Z.of_nat (sm_successful s)));
      ("failed", JsonNumber (Z.of_nat (sm_failed s)));
      ("total_players", JsonNumber (Z.of_nat (total_players s)));
      ("players",
        JsonObject (prod_map id tally_json <$> map_to_list (players s)))]
     ++ match sm_errors s with
        | Some es => [("errors", JsonArray (JsonString <$> es))]
        | None => []
        end)%list.

Definition response_json (r : Response) : json :=
  match r with
  | Preflight => JsonString "ok"
  | MissingFields error received =>
      JsonObject [("success", JsonBool false); ("error", JsonString error);
                  ("received", body_json received)]
  | Failure _ error =>
      JsonObject [("success", JsonBool false); ("error", JsonString error)]
  | Success s => summary_json s
  end.

(** [o[k]] on a JSON object. *)
Definition json_field (k : string) (j : json) : option json :=
  match j with
  | JsonObject fields => snd <$> List.find (λ kv, String.eqb (fst kv) k) fields
  | _ => None
  end.

(** ** The leaderboard reader *)

Module Leaderboard.

(** What the reader needs of a persisted row: the player, the match
    average and the legs played. *)
Record StatRecord : Type := mkStatRecord {
  sr_name : string;
  sr_average : Q;
  sr_legs_played : Z;
}.

(** One row of [player_stats]. *)
Record PlayerStats : Type := mkPlayerStats {
  ps_name : string;
  ps_weighted_3da : Q;
  ps_legs_played : Z;
}.

(** One entry of [players] in the response. *)
Record Entry : Type := mkEntry {
  rank : nat;
  lb_name : string;
  lb_weighted_3da : Q;
  lb_legs_played : Z;
}.

Definition weighted_sum (rs : list StatRecord) : Q :=
  foldr (λ r acc, sr_average r * inject_Z (sr_legs_played r) + acc)%Q 0%Q rs.

Definition total_legs (rs : list StatRecord) : Z :=
  foldr (λ r acc, sr_legs_played r + acc) 0 rs.

(** Modelled from the spec: the legs-weighted mean behind the
    [weighted_3da] column, whose computation (the [player_stats] relation)
    is not among the sources: the sum of average times legs played over
    the sum of legs played. The quotient of [Q] is total: over no legs at
    all it is 0. *)
Definition weighted_average (rs : list StatRecord) : Q :=
  (weighted_sum rs / inject_Z (total_legs rs))%Q.

Definition records_of (p : string) (rs : list StatRecord) : list StatRecord :=
  filter (λ r, sr_name r = p) rs.

(** Modelled from the spec: [player_stats], one row per player over all
    the matching records of that player; the relation itself is not among
    the sources. *)
Definition player_stats (rs : list StatRecord) : list PlayerStats :=
  (λ p, {| ps_name := p;
           ps_weighted_3da := weighted_average (records_of p rs);
           ps_legs_played := total_legs (records_of p rs) |})
    <$> remove_dups (sr_name <$> rs).

(** Modelled from the spec: [.order('weighted_3da', { ascending: false })],
    which the store executes: rows by descending [weighted_3da]. *)
Fixpoint insert_desc (x : PlayerStats) (l : list PlayerStats)
    : list PlayerStats :=
  match l with
  | [] => [x]
  | y :: l' =>
      if Qle_bool (ps_weighted_3da x) (ps_weighted_3da y)
      then y :: insert_desc x l'
      else x :: l
  end.

Definition order_desc (l : list PlayerStats) : list PlayerStats :=
  foldr insert_desc [] l.

(** [q || 0] on a number *)
Definition or_zeroQ (q : Q) : Q := if (Qnum q =? 0)%Z then 0%Q else q.

Definition or_zeroZ (z : Z) : Z := if z =? 0 then 0 else z.

(** [(allPlayers || []).map((player, index) => ({ rank: index + 1, ... }))] *)
Definition format_players (allPlayers : list PlayerStats) : list Entry :=
  imap (λ index player,
          {| rank := index + 1;
             lb_name := ps_name player;
             lb_weighted_3da := or_zeroQ (ps_weighted_3da player);
             lb_legs_played := or_zeroZ (ps_legs_played player) |})
       allPlayers.

Definition leaderboard (rs : list StatRecord) : list Entry :=
  format_players (order_desc (player_stats rs)).

(** [a] may stand before [b] in a descending order. *)
Definition stands_before (a b : PlayerStats) : Prop :=
  (ps_weighted_3da b <= ps_weighted_3da a)%Q.

End Leaderboard.

(** ** Sample data *)

Module Sample.

(** The distribution of the specification's example. *)
Definition dist : gmap string Z :=
  <["100" := 3]> (<["140" := 1]> (<["180" := 2]> ∅)).

Definition alice : Player :=
  mkPlayer "Alice" (JNum 3) (JNum 5) (JNum (8000 # 100)) (JStr "card/alice").
Definition bob : Player :=
  mkPlayer "Bob" (JNum 2) (JNum 5) (JNum (6398 # 100)) JUndefined.

Definition counts : Counts :=
  {| distribution := [Some dist];
     first_nine := [Some (mkFirstNine (JNum 0)); Some (mkFirstNine (JNum 75))];
     checkout_stats := [] |}.

Definition event : Api2Data :=
  {| sections :=
       Some [mkSection (Some [mkSegment (Some "m1"); mkSegment None;
                              mkSegment (Some "m2")]);
             mkSection None;
             mkSection (Some [mkSegment (Some "m3")])] |}.

(** Three matches; the players page of the second answers 500. *)
Definition env : Env :=
  {| get_user := Some "u1";
     api2 := λ _, Http 200 (inr event);
     players_page := λ matchId,
       if String.eqb matchId "m2" then Http 500 NoInertia
       else Http 200 (Parsed [Some alice; Some bob]);
     counts_page := λ _, Http 200 (Parsed counts);
     upsert_error := λ _, None;
     object_prototype := Object_prototype_names |}.

(** The same, with a store that rejects every row of Alice. *)
Definition env_reject_alice : Env :=
  {| get_user := Some "u1";
     api2 := λ _, Http 200 (inr event);
     players_page := λ _, Http 200 (Parsed [Some alice; Some bob]);
     counts_page := λ _, Http 200 (Parsed counts);
     upsert_error := λ r,
       if String.eqb (name r) "Alice" then Some "timeout" else None;
     object_prototype := Object_prototype_names |}.

(** An event whose discovery finds no match. *)
Definition env_no_match : Env :=
  {| get_user := Some "u1";
     api2 := λ _,
       Http 200
         (inr (mkApi2Data (Some [mkSection (Some [mkSegment None])])));
     players_page := players_page env;
     counts_page := counts_page env;
     upsert_error := λ _, None;
     object_prototype := Object_prototype_names |}.

(** An event [E1] without a match beside an event with three. *)
Definition env_E1_empty : Env :=
  {| get_user := Some "u1";
     api2 := λ eventId,
       if String.eqb eventId "E1"
       then Http 200 (inr (mkApi2Data (Some [mkSection None])))
       else Http 200 (inr event);
     players_page := players_page env;
     counts_page := counts_page env;
     upsert_error := λ _, None;
     object_prototype := Object_prototype_names |}.

(** A match of a player called [constructor] and of Bob. *)
Definition env_constructor : Env :=
  {| get_user := Some "u1";
     api2 := λ _,
       Http 200
         (inr (mkApi2Data
                 (Some [mkSection (Some [mkSegment (Some "m1")])])));
     players_page := λ _,
       Http 200
         (Parsed [Some (mkPlayer "constructor" JNull JNull JNull JNull);
                  Some bob]);
     counts_page := λ _, Http 200 (Parsed counts);
     upsert_error := λ _, None;
     object_prototype := Object_prototype_names |}.

Definition request : Request :=
  {| method := "POST";
     body :=
       inr {| req_event_url :=
                Some "https://tv.dartconnect.com/event/E1/matches";
              req_event_name := Some "Event 1" |} |}.

Definition empty_world : World := {| table := []; calls := [] |}.

End Sample.

(** ** Notions used to state the properties *)

(** A sequence of upserts, first to last. *)
Definition upserts (rs : list Row) (t : list Row) : list Row :=
  foldl (λ t r, upsert r t) t rs.

(** The last row of [rs] written under key [k]. *)
Fixpoint last_write (k : string * string * string * string) (rs : list Row)
    : option Row :=
  match rs with
  | [] => None
  | r :: rs' =>
      match last_write k rs' with
      | Some x => Some x
      | None => if decide (k = row_key r) then Some r else None
      end
  end.

(** The rows built for players [i], [i+1], ... of a match. *)
Fixpoint built_rows (user ev matchId : string) (counts : Counts) (i : nat)
    (ps : list Player) : list Row :=
  match ps with
  | [] => []
  | q :: ps' =>
      build_record user ev matchId counts i q
        :: built_rows user ev matchId counts (S i) ps'
  end.

(** The variables of the handler, as opposed to the world. *)
Definition locals (st : State)
    : nat * nat * list string * gmap string Tally :=
  (successful st, failed st, errors st, playerSummary st).

(** A computation whose outcome, writes and calls are the same from every
    state, and whose effect on the handler's variables depends on those
    variables only. *)
Definition uniform {A} (c : Exec A) : Prop :=
  ∃ (rows : list Row) (cs : list Call) (res : string + A),
    ∀ st,
      (c st).2 = res ∧
      table (world (c st).1) = upserts rows (table (world st)) ∧
      calls (world (c st).1) = (calls (world st) ++ cs)%list ∧
      ∀ st2, locals st = locals st2 → locals (c st).1 = locals (c st2).1.

(** The same for a state transformer. *)
Definition uniform_step (f : State → State) : Prop :=
  ∃ (rows : list Row) (cs : list Call),
    ∀ st,
      table (world (f st)) = upserts rows (table (world st)) ∧
      calls (world (f st)) = (calls (world st) ++ cs)%list ∧
      ∀ st2, locals st = locals st2 → locals (f st) = locals (f st2).

(** A computation that leaves the counters and the error list alone. *)
Definition keeps_counters {A} (c : Exec A) : Prop :=
  ∀ st,
    successful (c st).1 = successful st ∧
    failed (c st).1 = failed st ∧
    errors (c st).1 = errors st.

(** A computation that adds one to [successful] exactly when it returns,
    and leaves [failed] and the error list alone. *)
Definition counts_success {A} (c : Exec A) : Prop :=
  ∀ st,
    failed (c st).1 = failed st ∧
    errors (c st).1 = errors st ∧
    successful (c st).1
    = match (c st).2 with
      | inr _ => S (successful st)
      | inl _ => successful st
      end.

(** The entry that the [catch] block pushes for a match. *)
Definition error_entry (matchId msg : string) : string :=
  "Match " ++ matchId ++ ": " ++ msg.

(** The message with which the [try] block of a match ends when it throws,
    read off a run of the block on an empty table; the block ends in the
    same way from every state ([scrape_match_outcome]). *)
Definition match_failure (env : Env) (user ev matchId : string)
    : option string :=
  match (scrape_match env user ev matchId
           (init_state {| table := []; calls := [] |})).2 with
  | inl msg => Some msg
  | inr _ => None
  end.

(** The entries of the failing matches of a list, in the order of the
    list. *)
Definition failure_entries (env : Env) (user ev : string)
    (matchIds : list string) : list string :=
  omap (λ matchId, error_entry matchId <$> match_failure env user ev matchId)
       matchIds.

(** ** Statements that are examined and found not to hold as worded *)

(** "When the upsert of one record fails, only that write fails: the other
    player records of the match are still persisted and the match is not
    counted as failed." *)
Definition upsert_failure_spares_match : Prop :=
  ∀ (env : Env) (user ev matchId : string) (ps : list (option Player))
    (counts : Counts) (st : State) (i : nat) (p : Player) (msg : string),
    players_page env matchId = Http 200 (Parsed ps) →
    counts_page env matchId = Http 200 (Parsed counts) →
    ps !! i = Some (Some p) →
    upsert_error env (build_record user ev matchId counts i p) = Some msg →
    let st' := match_step env user ev st matchId in
    failed st' = failed st ∧
    ∀ j q, ps !! j = Some (Some q) →
      upsert_error env (build_record user ev matchId counts j q) = None →
      row_key (build_record user ev matchId counts j q)
        ∈ keys (table (world st')).

(** An entry of the shape [{match_id, message}]. *)
Definition is_error_object (j : json) : Prop :=
  ∃ id msg,
    j = JsonObject [("match_id", JsonString id); ("message", JsonString msg)].

(** "[errors] is present only when a match failed, and each of its entries
    is a [{match_id, message}] object." *)
Definition errors_are_objects : Prop :=
  ∀ (env : Env) (req : Request) (w w' : World) (s : RunSummary),
    handler env req w = (w', Success s) →
    (is_Some (json_field "errors" (summary_json s)) →
     (0 < sm_failed s)%nat) ∧
    ∀ items, json_field "errors" (summary_json s) = Some (JsonArray items) →
             Forall is_error_object items.

(** "[first_nine_avg] is [first_nine[i].average] whenever that is present,
    and [null] when it is absent." *)
Definition first_nine_copied_when_present : Prop :=
  ∀ (user ev matchId : string) (counts : Counts) (i : nat) (p : Player),
    let av := fn_average (at_or (first_nine counts) i empty_first_nine) in
    let r := build_record user ev matchId counts i p in
    (av ≠ JUndefined → first_nine_avg r = av) ∧
    (av = JUndefined → first_nine_avg r = JNull).

(** ** Further notions used to state properties *)

(** The [props] of a page that was fetched with a success status and
    parsed; [None] for every other outcome. *)
Definition page_ok {A} (r : Fetched (Document A)) : option A :=
  match r with
  | Http status (Parsed props) => if ok status then Some props else None
  | _ => None
  end.

(** The keys that the tallies read. *)
Definition tally_keys : list string :=
  ["100"; "140"; "141"; "160"; "171"; "180"].

Definition slash : ascii := "/".

(** The characters of a string. *)
Fixpoint chars (s : string) : list ascii :=
  match s with
  | EmptyString => []
  | String c s' => c :: chars s'
  end.

(** The string is empty or starts with a slash. *)
Definition ends_token (post : string) : Prop :=
  post = "" ∨ ∃ post', post = String "/" post'.

(** The rows of the upsert calls that the store accepted, in call order. *)
Definition written (env : Env) (cs : list Call) : list Row :=
  omap (λ c, match c with
             | Upsert r =>
                 match upsert_error env r with
                 | None => Some r
                 | Some _ => None
                 end
             | _ => None
             end) cs.

(** The matches whose players page was fetched, in call order. *)
Definition fetched_players (cs : list Call) : list string :=
  omap (λ c, match c with FetchPlayers m => Some m | _ => None end) cs.

(** The tally of [playerSummary] after one more row of a player. *)
Definition tally_row (inherited : list string) (m : gmap string Tally)
    (r : Row) : gmap string Tally :=
  add_tally inherited (name r) (count_180s r) m.

Definition sum_180s (rows : list Row) : Z :=
  foldr (λ r acc, count_180s r + acc) 0 rows.

(** The rows of one player. *)
Definition rows_of (n : string) (rows : list Row) : list Row :=
  filter (λ r, name r = n) rows.

(** A call made for match [matchId] on behalf of [user] and [ev], after
    the fetch of the players page. *)
Definition later_call (user ev matchId : string) (c : Call) : Prop :=
  match c with
  | FetchCounts m => m = matchId
  | Upsert r => user_id r = user ∧ event_name r = ev ∧ match_id r = matchId
  | FetchPlayers _ | GetUser | Discover _ => False
  end.

(** A call made by the loop over [matchIds] on behalf of [user] and
    [ev]. *)
Definition run_call (user ev : string) (matchIds : list string) (c : Call)
    : Prop :=
  match c with
  | FetchPlayers m | FetchCounts m => m ∈ matchIds
  | Upsert r => user_id r = user ∧ event_name r = ev ∧ match_id r ∈ matchIds
  | GetUser | Discover _ => False
  end.

(** A computation all of whose calls satisfy [P], whose writes are the
    accepted rows among its upsert calls, and which tallies exactly these
    rows. *)
Definition traced (env : Env) (P : Call → Prop) {A} (c : Exec A) : Prop :=
  ∀ st, ∃ cs,
    calls (world (c st).1) = (calls (world st) ++ cs)%list ∧
    table (world (c st).1) = upserts (written env cs) (table (world st)) ∧
    playerSummary (c st).1
    = foldl (tally_row (object_prototype env)) (playerSummary st)
        (written env cs) ∧
    Forall P cs.

(** The part of a response that says how the request ended. *)
Definition is_failure (resp : Response) : Prop :=
  match resp with
  | Preflight => False
  | MissingFields _ _ => True
  | Failure status _ => status = 400 ∨ status = 401 ∨ status = 500
  | Success _ => False
  end.

(** ** The stats function (the reader of [player_stats]) *)

Module StatsFunction.

(** A row of [player_stats] as the query returns it. The two columns that
    the function adds up are integers or [null]; the others are only
    copied. *)
Record PlayerRow : Type := mkPlayerRow {
  pr_name : jsval;
  pr_weighted_3da : jsval;
  pr_legs_played : option Z;
  pr_legs_won : jsval;
  pr_total_180s : option Z;
  pr_total_140plus : jsval;
  pr_total_100plus : jsval;
  pr_high_finish : jsval;
  pr_events_played : jsval;
  pr_is_qualified : jsval;
}.

(** One entry of [players] in the response. *)
Record BoardPlayer : Type := mkBoardPlayer {
  bp_rank : nat;
  bp_name : jsval;
  bp_weighted_3da : jsval;
  bp_legs_played : Z;
  bp_legs_won : jsval;
  bp_total_180s : Z;
  bp_total_140plus : jsval;
  bp_total_100plus : jsval;
  bp_high_finish : jsval;
  bp_events_played : jsval;
  bp_is_qualified : jsval;
}.

(** A row of [organizations], the three selected columns. *)
Record OrgRow : Type := mkOrgRow {
  org_name : jsval;
  org_total_events : jsval;
  org_current_event : jsval;
}.

Record BoardStats : Type := mkBoardStats {
  bs_total_players : nat;
  bs_total_legs_played : Z;
  bs_total_180s : Z;
  bs_qualified_players : nat;
}.

Record Board : Type := mkBoard {
  organization : OrgRow;
  stats : BoardStats;
  board_players : list BoardPlayer;
}.

(** What the store answers: [{ data, error }]. *)
Record QueryResult (A : Type) : Type := mkQueryResult {
  data : option A;
  error : option string;
}.
Arguments mkQueryResult {A} data error.
Arguments data {A} q.
Arguments error {A} q.

Record StatsEnv : Type := mkStatsEnv {
  (** [.from('player_stats').select('*').eq('name', n).single()] *)
  player_by_name : string → QueryResult PlayerRow;
  (** [.from('player_stats').select('*').order('weighted_3da', ...)] *)
  all_players : QueryResult (list PlayerRow);
  (** [.from('organizations').select(...).limit(1).single()] *)
  one_organization : QueryResult OrgRow;
}.

(** The request: its method and the [player] search parameter. *)
Record StatsRequest : Type := mkStatsRequest {
  sr_method : string;
  sr_player : option string;
}.

(** [OnePlayer row] is the reply [{ player: row.name, stats: { ... } }]
    whose [stats] are the nine other columns of the row, copied as they
    are. *)
Inductive StatsResponse : Type :=
| StatsPreflight
| StatsError (status : Z) (error : string)
| OnePlayer (playerStats : PlayerRow)
| Leaderboard (board : Board).

(** [x || 0] on an integer column *)
Definition int_or_zero (x : option Z) : Z :=
  match x with
  | Some v => if v =? 0 then 0 else v
  | None => 0
  end.

(** The callback of [(allPlayers || []).map(...)]. *)
Definition format_player (index : nat) (player : PlayerRow) : BoardPlayer :=
  {| bp_rank := index + 1;
     bp_name := pr_name player;
     bp_weighted_3da := JS.or (pr_weighted_3da player) (JNum 0);
     bp_legs_played := int_or_zero (pr_legs_played player);
     bp_legs_won := JS.or (pr_legs_won player) (JNum 0);
     bp_total_180s := int_or_zero (pr_total_180s player);
     bp_total_140plus := JS.or (pr_total_140plus player) (JNum 0);
     bp_total_100plus := JS.or (pr_total_100plus player) (JNum 0);
     bp_high_finish := JS.or (pr_high_finish player) (JNum 0);
     bp_events_played := JS.or (pr_events_played player) (JNum 0);
     bp_is_qualified := JS.or (pr_is_qualified player) (JBool false) |}.

Definition default_organization : OrgRow :=
  mkOrgRow (JStr "AADS") (JNum 7) (JNum 1).

Definition format_organization (orgData : option OrgRow) : OrgRow :=
  match orgData with
  | Some o =>
      {| org_name := JS.or (org_name o) (JStr "AADS");
         org_total_events := JS.or (org_total_events o) (JNum 7);
         org_current_event := JS.or (org_current_event o) (JNum 1) |}
  | None => default_organization
  end.

Definition board_stats (players : list BoardPlayer) : BoardStats :=
  {| bs_total_players := length players;
     bs_total_legs_played :=
       foldl (λ sum p, sum + bp_legs_played p) 0 players;
     bs_total_180s := foldl (λ sum p, sum + bp_total_180s p) 0 players;
     bs_qualified_players :=
       length (filter (λ p, truthy (bp_is_qualified p) = true) players) |}.

(** The reply without a [player] parameter. *)
Definition leaderboard_reply (env : StatsEnv) : StatsResponse :=
  let q := all_players env in
  match error q with
  | Some _ => StatsError 500 "Error fetching stats"
  | None =>
      let players := imap format_player (default [] (data q)) in
      Leaderboard
        {| organization := format_organization (data (one_organization env));
           stats := board_stats players;
           board_players := players |}
  end.

(** [Deno.serve(async (req) => ...)] of the stats function. *)
Definition stats_handler (env : StatsEnv) (req : StatsRequest)
    : StatsResponse :=
  if String.eqb (sr_method req) "OPTIONS" then StatsPreflight
  else
    match sr_player req with
    | Some (String c n) =>
        let q := player_by_name env (String c n) in
        match error q, data q with
        | None, Some playerStats => OnePlayer playerStats
        | _, _ => StatsError 404 "Player not found"
        end
    | Some EmptyString | None => leaderboard_reply env
    end.

End StatsFunction.

(** ** The overlay page *)

Module Overlay.

(** [formatDateTime(date)] at time [now], both in milliseconds; [None] is
    an invalid date, for which every comparison is false.
    [toLocaleString] stands for [date.toLocaleString('en-US', options)]. *)
Definition formatDateTime (toLocaleString : option Z → string) (now : Z)
    (date : option Z) : string :=
  match date with
  | None => toLocaleString date
  | Some d =>
      let diff := now - d in
      if diff <? 60000 then "Just now"
      else if diff <? 3600000 then
        let minutes := diff / 60000 in
        pretty minutes ++ " minute" ++ (if 1 <? minutes then "s" else "")
          ++ " ago"
      else toLocaleString date
  end.

End Overlay.

(** * Properties *)

(** ** Record building *)

Section RecordBuilding.

Variables user ev matchId : string.
Variable p : Player.

Lemma or_zero_default (dist : gmap string Z) (k : string) :
  or_zero dist k = default 0 (dist !! k).
Proof.
  unfold or_zero. destruct (dist !! k) as [v|]; simpl; [|done].
  destruct (Z.eqb_spec v 0); congruence.
Qed.

Lemma add_if_truthy_default (dist : gmap string Z) (k : string) (acc : Z) :
  add_if_truthy dist k acc = acc + default 0 (dist !! k).
Proof.
  unfold add_if_truthy. destruct (dist !! k) as [v|]; simpl; [|lia].
  destruct (Z.eqb_spec v 0); lia.
Qed.

(** C1. For every distribution map the built record has [count_180s]
    equal to the value at key "180" (0 if absent), [count_140_plus] equal
    to the sum of the values at "140", "141", "160" and "171" (each
    defaulting to 0) plus [count_180s], and [count_100_plus] equal to the
    value at "100" (default 0) plus [count_140_plus]; the distribution
    {"100":3,"140":1,"180":2} gives 2, 3 and 6. *)
Theorem C1_tallies_from_distribution (counts : Counts) (i : nat) :
  let dist := at_or (distribution counts) i ∅ in
  let value k := default 0 (dist !! k) in
  let r := build_record user ev matchId counts i p in
  let r0 := build_record user ev matchId
              (mkCounts [Some Sample.dist] [] []) 0 p in
  count_180s r = value "180" ∧
  count_140_plus r
    = value "140" + value "141" + value "160" + value "171" + count_180s r ∧
  count_100_plus r = value "100" + count_140_plus r ∧
  count_180s r0 = 2 ∧ count_140_plus r0 = 3 ∧ count_100_plus r0 = 6.
Proof.
  cbv zeta. simpl.
  unfold calc_count_100_plus, calc_count_140_plus, calc_count_180s.
  rewrite !add_if_truthy_default, !or_zero_default.
  repeat split; try lia; vm_compute; reflexivity.
Qed.

Lemma Math_max_nil : Math_max [] = NegInfinity.
Proof. reflexivity. Qed.

Lemma Math_max_cons (x : Z) (xs : list Z) :
  Math_max (x :: xs) = max2 (Fin x) (Math_max xs).
Proof. reflexivity. Qed.

(** On at least one argument [Math.max] is the greatest of them. *)
Lemma Math_max_spec (xs : list Z) :
  xs ≠ [] →
  ∃ m, Math_max xs = Fin m ∧ m ∈ xs ∧ ∀ x, x ∈ xs → x ≤ m.
Proof.
  induction xs as [|x xs IH]; [done|]. intros _.
  rewrite Math_max_cons. destruct xs as [|y ys].
  - exists x. simpl. split; [done|]. split; [set_solver|].
    intros z Hz. apply list_elem_of_singleton in Hz. lia.
  - destruct IH as (m & Hm & Hin & Hle); [done|]. rewrite Hm. simpl.
    exists (Z.max x m). split; [done|]. split.
    + apply elem_of_cons.
      destruct (Z.max_spec x m) as [[_ ->]|[_ ->]]; auto.
    + intros z Hz. apply elem_of_cons in Hz as [->|Hz]; [lia|].
      specialize (Hle z Hz). lia.
Qed.

(** For a distribution with at least one key, [highest_score] is the
    greatest key read as a number. *)
Lemma highest_score_nonempty (dist : gmap string Z) :
  dist ≠ ∅ →
  ∃ m, calc_highest_score dist = Fin m ∧
       (∃ k, is_Some (dist !! k) ∧ key_score k = m) ∧
       ∀ k, is_Some (dist !! k) → key_score k ≤ m.
Proof.
  intros Hne. unfold calc_highest_score, Object_keys.
  destruct (Math_max_spec (key_score <$> (map_to_list dist).*1))
    as (m & Hm & Hin & Hle).
  - intros Hnil. apply fmap_nil_inv, fmap_nil_inv in Hnil.
    by apply map_to_list_empty_iff in Hnil.
  - exists m. split; [done|]. split.
    + apply list_elem_of_fmap in Hin as (k & -> & Hk).
      apply list_elem_of_fmap in Hk as ([k' v] & -> & Hkv).
      apply elem_of_map_to_list in Hkv. exists k'. eauto.
    + intros k [v Hv]. apply Hle, list_elem_of_fmap. exists k.
      split; [done|]. apply list_elem_of_fmap. exists (k, v).
      split; [done|]. by apply elem_of_map_to_list.
Qed.

(** [parseInt] reads a decimal numeral back. *)
Lemma digit_value_pretty_N_char (d : N) :
  (d < 10)%N → digit_value 10 (pretty_N_char d) = Some (Z.of_N d).
Proof.
  intros Hd.
  assert (d = 0 ∨ d = 1 ∨ d = 2 ∨ d = 3 ∨ d = 4 ∨ d = 5 ∨ d = 6 ∨ d = 7
          ∨ d = 8 ∨ d = 9)%N as Hcases by lia.
  repeat (destruct Hcases as [->|Hcases]; [reflexivity|]). by subst.
Qed.

Lemma digits_pretty_N_go (x : N) :
  (0 < x)%N →
  ∃ m, ∀ s acc,
    digits 10 (pretty_N_go x s) acc
    = digits 10 s (Some (m * default 0 acc + Z.of_N x)).
Proof.
  induction (N.lt_wf_0 x) as [x _ IH]. intros Hx.
  assert (x `mod` 10 < 10)%N as Hmod by (apply N.mod_lt; lia).
  pose proof (N.div_mod x 10 ltac:(lia)) as Hdm.
  destruct (decide (x `div` 10 = 0)%N) as [Hz|Hnz].
  - exists 10. intros s acc. rewrite pretty_N_go_step, Hz, pretty_N_go_0 by done.
    simpl. rewrite digit_value_pretty_N_char by done. do 2 f_equal. lia.
  - destruct (IH (x `div` 10)%N) as (m & Hm).
    { apply N.div_lt; lia. } { lia. }
    exists (10 * m). intros s acc. rewrite pretty_N_go_step, Hm by done.
    simpl. rewrite digit_value_pretty_N_char by done. do 2 f_equal. simpl.
    lia.
Qed.

Lemma pretty_N_go_head (x : N) :
  (0 < x)%N →
  ∀ s, ∃ d rest, (1 ≤ d ≤ 9)%N ∧ pretty_N_go x s = String (pretty_N_char d) rest.
Proof.
  induction (N.lt_wf_0 x) as [x _ IH]. intros Hx s.
  assert (x `mod` 10 < 10)%N as Hmod by (apply N.mod_lt; lia).
  pose proof (N.div_mod x 10 ltac:(lia)) as Hdm.
  rewrite pretty_N_go_step by done.
  destruct (decide (x `div` 10 = 0)%N) as [Hz|Hnz].
  - rewrite Hz, pretty_N_go_0. exists (x `mod` 10)%N, s. split; [lia|done].
  - apply IH; [apply N.div_lt; lia|lia].
Qed.

Lemma parseInt_pretty_N (n : N) : parseInt (pretty n) = Some (Z.of_N n).
Proof.
  unfold pretty, pretty_N. case_decide as Hn; [by subst|].
  destruct (pretty_N_go_head n ltac:(lia) "") as (d & rest & Hd & Hs).
  destruct (digits_pretty_N_go n ltac:(lia)) as (m & Hm).
  specialize (Hm "" None). simpl in Hm. rewrite Hs in Hm.
  rewrite Hs. unfold parseInt.
  assert (d = 1 ∨ d = 2 ∨ d = 3 ∨ d = 4 ∨ d = 5 ∨ d = 6 ∨ d = 7
          ∨ d = 8 ∨ d = 9)%N as Hcases by lia.
  repeat (destruct Hcases as [->|Hcases];
          [cbn [skip_white_space is_white_space pretty_N_char];
           simpl in *; rewrite Hm; f_equal; lia|]).
  subst. simpl in *. rewrite Hm. f_equal. lia.
Qed.

Lemma key_score_pretty_N (n : N) : key_score (pretty n) = Z.of_N n.
Proof.
  unfold key_score. rewrite parseInt_pretty_N.
  destruct (Z.eqb_spec (Z.of_N n) 0); congruence.
Qed.

(** For a distribution with at least one key, all keys decimal numerals,
    [highest_score] is the greatest key. *)
Lemma highest_score_numeric_keys (dist : gmap string Z) :
  dist ≠ ∅ →
  (∀ k, is_Some (dist !! k) → ∃ n : N, k = pretty n) →
  ∃ n : N,
    calc_highest_score dist = Fin (Z.of_N n) ∧
    is_Some (dist !! pretty n) ∧
    ∀ n' : N, is_Some (dist !! pretty n') → (n' ≤ n)%N.
Proof.
  intros Hne Hnum.
  destruct (highest_score_nonempty dist Hne) as (m & Hm & (k & Hk & Hkm) & Hle).
  destruct (Hnum k Hk) as (n & ->). rewrite key_score_pretty_N in Hkm.
  exists n. subst m. split; [done|]. split; [done|].
  intros n' Hn'. specialize (Hle _ Hn'). rewrite key_score_pretty_N in Hle.
  lia.
Qed.

Lemma highest_score_example : calc_highest_score Sample.dist = Fin 180.
Proof. vm_compute. reflexivity. Qed.

(** C2. [highest_score] is meant to be the greatest numeric key of the
    distribution map, and 0 for an empty map. For a map with keys it is
    the greatest key ([highest_score_numeric_keys]); for the empty map the
    code, which spreads no argument into [Math.max], yields [-Infinity],
    also for a player whose index is missing from the [distribution]
    array. *)
Theorem C2_highest_score_of_empty_distribution :
  calc_highest_score ∅ = NegInfinity ∧
  highest_score (build_record user ev matchId (mkCounts [] [] []) 0 p)
    = NegInfinity ∧
  calc_highest_score ∅ ≠ Fin 0.
Proof. repeat split; done. Qed.

(** C8 (amended). [first_nine_avg] is [first_nine[i].average] whenever
    that value is truthy (a non-zero number, a non-empty string), and
    [null] otherwise: when the entry or the field is absent, and also
    when the average is 0; it is never the number 0. *)
Theorem C8_first_nine_avg_or_null (counts : Counts) (i : nat) :
  let av := fn_average (at_or (first_nine counts) i empty_first_nine) in
  let r := build_record user ev matchId counts i p in
  (truthy av = true → first_nine_avg r = av) ∧
  (truthy av = false → first_nine_avg r = JNull) ∧
  (mjoin (first_nine counts !! i) = None → first_nine_avg r = JNull) ∧
  (∀ q, first_nine_avg r = JNum q → ¬ (q == 0)%Q).
Proof.
  cbv zeta. simpl. unfold JS.or.
  split; [by intros ->|]. split; [by intros ->|]. split.
  - unfold at_or. by intros ->.
  - intros q. destruct (truthy _) eqn:Ht; [|done]. intros Hq.
    rewrite Hq in Ht. simpl in Ht. unfold Qeq. simpl.
    apply negb_true_iff, Z.eqb_neq in Ht. lia.
Qed.

End RecordBuilding.

Lemma C8_first_nine_avg_or_null_witness :
  truthy (JNum 75) = true ∧
  first_nine_avg (build_record "u1" "Event 1" "m1" Sample.counts 1 Sample.bob)
    = JNum 75.
Proof.
  split; [reflexivity|].
  apply (C8_first_nine_avg_or_null "u1" "Event 1" "m1" Sample.bob
           Sample.counts 1).
  reflexivity.
Defined.

(** C8, as worded, fails for an average of 0, which is present and is
    replaced by [null]. *)
Lemma C8_counterexample :
  fn_average (at_or (first_nine Sample.counts) 0 empty_first_nine) = JNum 0 ∧
  first_nine_avg
    (build_record "u1" "Event 1" "m1" Sample.counts 0 Sample.alice) = JNull ∧
  ¬ first_nine_copied_when_present.
Proof.
  split; [reflexivity|]. split; [reflexivity|].
  intros H.
  destruct (H "u1" "Event 1" "m1" Sample.counts 0%nat Sample.alice) as [H1 _].
  simpl in H1. discriminate H1. discriminate.
Qed.

(** ** The store *)

Section Store.

Implicit Types (r : Row) (t : list Row).
Implicit Types (k : string * string * string * string).

Lemma elem_of_keys_upsert k r t :
  k ∈ keys (upsert r t) ↔ k = row_key r ∨ k ∈ keys t.
Proof.
  unfold keys. induction t as [|x t IH]; csimpl.
  - rewrite list_elem_of_singleton, elem_of_nil. tauto.
  - case_decide as Hk; csimpl; rewrite !elem_of_cons.
    + rewrite Hk. tauto.
    + rewrite IH. tauto.
Qed.

Lemma keys_upsert_old r t :
  row_key r ∈ keys t → keys (upsert r t) = keys t.
Proof.
  unfold keys. induction t as [|x t IH]; csimpl.
  - intros H. by apply elem_of_nil in H.
  - intros H. case_decide as Hk; csimpl; [by rewrite Hk|].
    apply elem_of_cons in H as [H|H]; [congruence|]. by rewrite IH.
Qed.

Lemma keys_upsert_new r t :
  row_key r ∉ keys t → keys (upsert r t) = (keys t ++ [row_key r])%list.
Proof.
  unfold keys. induction t as [|x t IH]; csimpl; [done|].
  intros H. apply not_elem_of_cons in H as [H1 H2].
  case_decide as Hk; [congruence|]. csimpl. by rewrite IH.
Qed.

(** The unique index is kept by every write. *)
Lemma NoDup_keys_upsert r t : NoDup (keys t) → NoDup (keys (upsert r t)).
Proof.
  intros Hnd. destruct (decide (row_key r ∈ keys t)) as [Hin|Hout].
  - by rewrite keys_upsert_old.
  - rewrite keys_upsert_new by done.
    apply NoDup_app. split; [done|]. split.
    + intros k Hk Hk'. apply list_elem_of_singleton in Hk'. by subst.
    + apply NoDup_singleton.
Qed.

(** A write leaves the whole new row under its key and touches no other
    key. *)
Lemma find_row_upsert k r t :
  find_row k (upsert r t)
  = if decide (k = row_key r) then Some r else find_row k t.
Proof.
  unfold find_row. induction t as [|x t IH]; simpl.
  - case_decide as Hk.
    + by rewrite bool_decide_eq_true_2.
    + rewrite bool_decide_eq_false_2; [done|congruence].
  - destruct (decide (row_key x = row_key r)) as [Hx|Hx]; simpl.
    + case_decide as Hk.
      * by rewrite bool_decide_eq_true_2.
      * rewrite !bool_decide_eq_false_2; [done|congruence|congruence].
    + case_bool_decide as Hxk; [|done].
      case_decide; [congruence|done].
Qed.

Lemma find_row_None k t : k ∉ keys t → find_row k t = None.
Proof.
  unfold find_row, keys. induction t as [|x t IH]; simpl; [done|].
  intros H. apply not_elem_of_cons in H as [H1 H2].
  rewrite bool_decide_eq_false_2 by congruence. auto.
Qed.

(** Under the unique index a table is determined by its keys and by the
    row under each key. *)
Lemma table_ext t1 t2 :
  NoDup (keys t1) → keys t1 = keys t2 →
  (∀ k, find_row k t1 = find_row k t2) → t1 = t2.
Proof.
  revert t2. induction t1 as [|x t1 IH]; intros [|y t2] Hnd Hk Hf;
    try done.
  unfold keys in *. csimpl in *.
  assert (row_key x = row_key y) as Hxy by congruence.
  assert (row_key <$> t1 = row_key <$> t2) as Hk' by congruence.
  apply NoDup_cons in Hnd as [Hx Hnd].
  pose proof (Hf (row_key x)) as Hfx.
  rewrite !bool_decide_eq_true_2 in Hfx by congruence.
  injection Hfx as ->. f_equal. apply IH; [done|done|].
  intros k. destruct (decide (k = row_key y)) as [->|Hne].
  - rewrite !find_row_None; [done| |done]. unfold keys. by rewrite <- Hk'.
  - specialize (Hf k).
    rewrite !bool_decide_eq_false_2 in Hf by congruence. done.
Qed.

Lemma upserts_app rs1 rs2 t :
  upserts (rs1 ++ rs2) t = upserts rs2 (upserts rs1 t).
Proof. apply foldl_app. Qed.

Lemma NoDup_keys_upserts rs t : NoDup (keys t) → NoDup (keys (upserts rs t)).
Proof.
  revert t. induction rs as [|r rs IH]; intros t Hnd; [done|].
  apply IH. by apply NoDup_keys_upsert.
Qed.

Lemma elem_of_keys_upserts k rs t :
  k ∈ keys (upserts rs t) ↔ k ∈ keys rs ∨ k ∈ keys t.
Proof.
  revert t. induction rs as [|r rs IH]; intros t; simpl.
  - unfold keys at 2. simpl. rewrite elem_of_nil. tauto.
  - rewrite IH, elem_of_keys_upsert. unfold keys at 3. simpl.
    rewrite elem_of_cons. tauto.
Qed.

Lemma find_row_upserts k rs t :
  find_row k (upserts rs t) = from_option Some (find_row k t) (last_write k rs).
Proof.
  revert t. induction rs as [|r rs IH]; intros t; simpl; [done|].
  rewrite IH. destruct (last_write k rs); simpl; [done|].
  rewrite find_row_upsert. by case_decide.
Qed.

(** Writing rows whose keys are all there changes no key. *)
Lemma keys_upserts_old rs t :
  (∀ k, k ∈ keys rs → k ∈ keys t) → keys (upserts rs t) = keys t.
Proof.
  revert t. induction rs as [|r rs IH]; intros t Hin; simpl; [done|].
  assert (row_key r ∈ keys t) as Hr.
  { apply Hin. unfold keys. simpl. apply elem_of_cons. by left. }
  rewrite IH, keys_upsert_old; [done..|].
  intros k Hk. rewrite keys_upsert_old by done.
  apply Hin. unfold keys. simpl. apply elem_of_cons. by right.
Qed.

(** Re-ingestion: the same writes a second time change nothing. *)
Lemma upserts_idempotent rs t :
  NoDup (keys t) → upserts rs (upserts rs t) = upserts rs t.
Proof.
  intros Hnd. apply table_ext.
  - by do 2 apply NoDup_keys_upserts.
  - apply keys_upserts_old. intros k Hk.
    apply elem_of_keys_upserts. by left.
  - intros k. rewrite !find_row_upserts.
    by destruct (last_write k rs).
Qed.

End Store.

(** ** The world does not steer the run *)

Section Uniform.

Lemma uniform_ret {A} (a : A) : uniform (ret a).
Proof. exists [], [], (inr a). intros st. simpl. by rewrite app_nil_r. Qed.

Lemma uniform_throw {A} (msg : string) : uniform (@throw A msg).
Proof. exists [], [], (inl msg). intros st. simpl. by rewrite app_nil_r. Qed.

Lemma uniform_log (c : Call) : uniform (modify (with_world (log_call c))).
Proof.
  exists [], [c], (inr tt). intros st. simpl. repeat split; try done;
    unfold locals; simpl; by intros st2 [= -> -> -> ->].
Qed.

Lemma uniform_write (r : Row) : uniform (modify (with_world (write_row r))).
Proof.
  exists [r], [], (inr tt). intros st. simpl. rewrite app_nil_r.
  repeat split; try done;
    unfold locals; simpl; by intros st2 [= -> -> -> ->].
Qed.

Lemma uniform_track (inherited : list string) (nm : string) (c180 : Z) :
  uniform (modify (track_summary inherited nm c180)).
Proof.
  exists [], [], (inr tt). intros st. simpl. rewrite app_nil_r.
  repeat split; try done;
    unfold locals; simpl; by intros st2 [= -> -> -> ->].
Qed.

Lemma uniform_incr : uniform (modify incr_successful).
Proof.
  exists [], [], (inr tt). intros st. simpl. rewrite app_nil_r.
  repeat split; try done;
    unfold locals; simpl; by intros st2 [= -> -> -> ->].
Qed.

Lemma uniform_bind {A B} (c : Exec A) (k : A → Exec B) :
  uniform c → (∀ a, uniform (k a)) → uniform (bind c k).
Proof.
  intros (rows1 & cs1 & res1 & Hc) Hk. destruct res1 as [e|a].
  - exists rows1, cs1, (inl e). intros st. unfold bind.
    destruct (Hc st) as (Hres & Ht & Hcs & Hl).
    destruct (c st) as [st' r] eqn:E. simpl in *. subst r. simpl.
    repeat split; try done.
    intros st2 Heq. specialize (Hl st2 Heq).
    destruct (Hc st2) as (Hres2 & _).
    destruct (c st2) as [st2' r2]. simpl in *. by subst.
  - destruct (Hk a) as (rows2 & cs2 & res2 & Hka).
    exists (rows1 ++ rows2)%list, (cs1 ++ cs2)%list, res2.
    intros st. unfold bind.
    destruct (Hc st) as (Hres & Ht & Hcs & Hl).
    destruct (c st) as [st' r] eqn:E. simpl in *. subst r.
    destruct (Hka st') as (Hr' & Ht' & Hcs' & Hl').
    split; [done|]. split; [by rewrite Ht', Ht, upserts_app|].
    split; [by rewrite Hcs', Hcs, app_assoc|].
    intros st2 Heq. specialize (Hl st2 Heq).
    destruct (Hc st2) as (Hres2 & _).
    destruct (c st2) as [st2' r2]. simpl in *. subst. by apply Hl'.
Qed.

Variable env : Env.
Variables user ev : string.

Lemma uniform_fetch_document {A} (c : Call) (r : Fetched (Document A))
    (what : string) :
  uniform (fetch_document c r what).
Proof.
  unfold fetch_document. apply uniform_bind; [apply uniform_log|].
  intros _. destruct r as [msg|status [|msg|props]];
    try destruct (negb (ok status));
    auto using @uniform_throw, @uniform_ret.
Qed.

Lemma uniform_process_player matchId counts i player :
  uniform (process_player env user ev matchId counts i player).
Proof.
  destruct player as [p|]; simpl; [|apply uniform_throw].
  apply uniform_bind; [apply uniform_log|]. intros _.
  destruct (upsert_error env _); [apply uniform_throw|].
  apply uniform_bind; [apply uniform_write|]. intros _.
  apply uniform_track.
Qed.

Lemma uniform_process_players matchId counts players :
  ∀ i, uniform (process_players env user ev matchId counts i players).
Proof.
  induction players as [|player rest IH]; intros i; simpl.
  - apply uniform_ret.
  - apply uniform_bind; [apply uniform_process_player|]. intros _. apply IH.
Qed.

Lemma uniform_scrape_match matchId :
  uniform (scrape_match env user ev matchId).
Proof.
  unfold scrape_match.
  apply uniform_bind; [apply uniform_fetch_document|]. intros players.
  apply uniform_bind; [apply uniform_fetch_document|]. intros counts.
  apply uniform_bind; [apply uniform_process_players|]. intros _.
  apply uniform_incr.
Qed.

Lemma uniform_match_step matchId :
  uniform_step (λ st, match_step env user ev st matchId).
Proof.
  destruct (uniform_scrape_match matchId) as (rows & cs & res & H).
  exists rows, cs. intros st. unfold match_step.
  destruct (H st) as (Hres & Ht & Hcs & Hl).
  destruct (scrape_match env user ev matchId st) as [st' r] eqn:E.
  simpl in *. subst r.
  split; [by destruct res|]. split; [by destruct res|].
  intros st2 Heq. specialize (Hl st2 Heq).
  destruct (H st2) as (Hres2 & _).
  destruct (scrape_match env user ev matchId st2) as [st2' r2].
  simpl in *. subst r2. destruct res as [msg|[]]; [|done].
  unfold locals in *. simpl. by injection Hl as -> -> -> ->.
Qed.

Lemma uniform_scrape_matches matchIds :
  uniform_step (scrape_matches env user ev matchIds).
Proof.
  unfold scrape_matches.
  induction matchIds as [|matchId rest IH] using rev_ind.
  - exists [], []. intros st. simpl. by rewrite app_nil_r.
  - destruct IH as (rows1 & cs1 & H1).
    destruct (uniform_match_step matchId) as (rows2 & cs2 & H2).
    exists (rows1 ++ rows2)%list, (cs1 ++ cs2)%list. intros st.
    rewrite foldl_app. simpl.
    destruct (H1 st) as (Ht1 & Hc1 & Hl1).
    destruct (H2 (foldl (match_step env user ev) st rest))
      as (Ht2 & Hc2 & Hl2).
    split; [by rewrite Ht2, Ht1, upserts_app|].
    split; [by rewrite Hc2, Hc1, app_assoc|].
    intros st2 Heq. rewrite foldl_app. simpl. apply Hl2. by apply Hl1.
Qed.

End Uniform.

Lemma summary_of_locals (matchIds : list string) (st st2 : State) :
  locals st = locals st2 → summary_of matchIds st = summary_of matchIds st2.
Proof. unfold locals, summary_of. by intros [= -> -> -> ->]. Qed.

Lemma world_eta (w : World) (t : list Row) (c : list Call) :
  table w = t → calls w = c → w = {| table := t; calls := c |}.
Proof. destruct w. simpl. by intros -> ->. Qed.

Local Ltac same_world :=
  intros [? ?]; unfold log_call; simpl;
  rewrite <- ?app_assoc, ?app_nil_r; done.

(** What a request does to the store and what it answers does not depend
    on the store it starts from. *)
Lemma handler_uniform (env : Env) (req : Request) :
  ∃ (rows : list Row) (cs : list Call) (resp : Response),
    ∀ w, handler env req w
         = ({| table := upserts rows (table w);
               calls := (calls w ++ cs)%list |}, resp).
Proof.
  unfold handler.
  destruct (String.eqb (method req) "OPTIONS").
  { exists [], [], Preflight. same_world. }
  destruct (body req) as [msg|b].
  { exists [], [], (Failure 500 msg). same_world. }
  destruct (missing (req_event_url b) || missing (req_event_name b)).
  { eexists [], [], _. same_world. }
  destruct (get_user env) as [user|].
  2: { exists [], [GetUser], (Failure 401 "Not authenticated"). same_world. }
  destruct (match_event _) as [eventId|].
  2: { exists [], [GetUser], (Failure 400 "Invalid event URL format").
       same_world. }
  unfold scrape_event.
  destruct (api2 env eventId) as [msg|status payload].
  { exists [], [GetUser; Discover eventId], (Failure 500 msg). same_world. }
  destruct (negb (ok status)).
  { eexists [], [GetUser; Discover eventId], _. same_world. }
  destruct payload as [msg|api2Data].
  { exists [], [GetUser; Discover eventId], (Failure 500 msg). same_world. }
  destruct (collect_match_ids api2Data) as [|matchId matchIds] eqn:Eids.
  { eexists [], [GetUser; Discover eventId], _. same_world. }
  set (ev := default "" (req_event_name b)).
  set (ids := matchId :: matchIds).
  destruct (uniform_scrape_matches env user ev ids) as (rows & cs & H).
  exists rows, ([GetUser; Discover eventId] ++ cs)%list,
    (Success (summary_of ids
       (scrape_matches env user ev ids (init_state (mkWorld [] []))))).
  intros w.
  destruct (H (init_state (log_call (Discover eventId) (log_call GetUser w))))
    as (Ht & Hc & Hl).
  f_equal.
  - apply world_eta; [done|]. rewrite Hc. simpl. by rewrite <- !app_assoc.
  - f_equal. by apply summary_of_locals, Hl.
Qed.

(** ** Persistence *)

(** C5. Running the pipeline a second time against the same upstream event
    leaves the table exactly as the first run left it, with the same
    answer: the write is an upsert on (user_id, event_name, match_id, name),
    which keeps one row per key and replaces the row under a key as a whole
    without touching any other. *)
Theorem C5_reingestion_is_idempotent (env : Env) (req : Request) (w0 : World) :
  NoDup (keys (table w0)) →
  let w1 := (handler env req w0).1 in
  let w2 := (handler env req w1).1 in
  table w2 = table w1 ∧
  (handler env req w1).2 = (handler env req w0).2 ∧
  NoDup (keys (table w1)) ∧
  ∀ r t, NoDup (keys t) →
    NoDup (keys (upsert r t)) ∧
    find_row (row_key r) (upsert r t) = Some r ∧
    ∀ k, k ≠ row_key r → find_row k (upsert r t) = find_row k t.
Proof.
  intros Hnd. destruct (handler_uniform env req) as (rows & cs & resp & H).
  cbv zeta. rewrite !H. simpl.
  split; [by apply upserts_idempotent|]. split; [done|].
  split; [by apply NoDup_keys_upserts|].
  intros r t Ht. split; [by apply NoDup_keys_upsert|].
  split; intros; rewrite find_row_upsert; by case_decide.
Qed.

Lemma C5_reingestion_is_idempotent_witness :
  let w1 := (handler Sample.env Sample.request Sample.empty_world).1 in
  let w2 := (handler Sample.env Sample.request w1).1 in
  table w2 = table w1.
Proof.
  apply (C5_reingestion_is_idempotent Sample.env Sample.request
           Sample.empty_world).
  simpl. apply NoDup_nil_2.
Defined.

(** ** Counting matches *)

Section Counters.

Lemma keeps_ret {A} (a : A) : keeps_counters (ret a).
Proof. by intros st. Qed.

Lemma keeps_throw {A} (msg : string) : keeps_counters (@throw A msg).
Proof. by intros st. Qed.

Lemma keeps_with_world (f : World → World) :
  keeps_counters (modify (with_world f)).
Proof. by intros st. Qed.

Lemma keeps_track (inherited : list string) (nm : string) (c180 : Z) :
  keeps_counters (modify (track_summary inherited nm c180)).
Proof. by intros st. Qed.

Lemma keeps_bind {A B} (c : Exec A) (k : A → Exec B) :
  keeps_counters c → (∀ a, keeps_counters (k a)) →
  keeps_counters (bind c k).
Proof.
  intros Hc Hk st. unfold bind. destruct (Hc st) as (H1 & H2 & H3).
  destruct (c st) as [st' [e|a]]; simpl in *; [done|].
  destruct (Hk a st') as (H1' & H2' & H3'). by rewrite H1', H2', H3'.
Qed.

Lemma counts_bind {A B} (c : Exec A) (k : A → Exec B) :
  keeps_counters c → (∀ a, counts_success (k a)) →
  counts_success (bind c k).
Proof.
  intros Hc Hk st. unfold bind. destruct (Hc st) as (H1 & H2 & H3).
  destruct (c st) as [st' [e|a]]; simpl in *; [done|].
  destruct (Hk a st') as (H1' & H2' & H3'). by rewrite H1', H2', H3', H1.
Qed.

Lemma counts_incr : counts_success (modify incr_successful).
Proof. by intros st. Qed.

Variable env : Env.
Variables user ev : string.

Lemma keeps_fetch_document {A} (c : Call) (r : Fetched (Document A))
    (what : string) :
  keeps_counters (fetch_document c r what).
Proof.
  unfold fetch_document. apply keeps_bind; [apply keeps_with_world|].
  intros _. destruct r as [msg|status [|msg|props]];
    try destruct (negb (ok status));
    auto using @keeps_throw, @keeps_ret.
Qed.

Lemma keeps_process_player matchId counts i player :
  keeps_counters (process_player env user ev matchId counts i player).
Proof.
  destruct player as [p|]; simpl; [|apply keeps_throw].
  apply keeps_bind; [apply keeps_with_world|]. intros _.
  destruct (upsert_error env _); [apply keeps_throw|].
  apply keeps_bind; [apply keeps_with_world|]. intros _.
  apply keeps_track.
Qed.

Lemma keeps_process_players matchId counts players :
  ∀ i, keeps_counters (process_players env user ev matchId counts i players).
Proof.
  induction players as [|player rest IH]; intros i; simpl.
  - apply keeps_ret.
  - apply keeps_bind; [apply keeps_process_player|]. intros _. apply IH.
Qed.

Lemma counts_scrape_match matchId :
  counts_success (scrape_match env user ev matchId).
Proof.
  unfold scrape_match.
  apply counts_bind; [apply keeps_fetch_document|]. intros players.
  apply counts_bind; [apply keeps_fetch_document|]. intros counts.
  apply counts_bind; [apply keeps_process_players|]. intros _.
  apply counts_incr.
Qed.

(** One turn of the loop over the matches counts its match once: as
    successful, or as failed with one entry pushed to [errors]. *)
Lemma match_step_counts (st : State) (matchId : string) :
  let st' := match_step env user ev st matchId in
  (successful st' = S (successful st) ∧ failed st' = failed st ∧
   errors st' = errors st) ∨
  (successful st' = successful st ∧ failed st' = S (failed st) ∧
   ∃ msg, errors st' = (errors st ++ [error_entry matchId msg])%list).
Proof.
  cbv zeta. unfold match_step.
  destruct (counts_scrape_match matchId st) as (Hf & He & Hs).
  destruct (scrape_match env user ev matchId st) as [st' [msg|u]];
    simpl in *.
  - right. rewrite Hf, He, Hs. eauto.
  - left. by rewrite Hf, He, Hs.
Qed.

Lemma scrape_matches_snoc (matchIds : list string) (matchId : string)
    (st : State) :
  scrape_matches env user ev (matchIds ++ [matchId]) st
  = match_step env user ev (scrape_matches env user ev matchIds st) matchId.
Proof. unfold scrape_matches. by rewrite foldl_app. Qed.

Lemma scrape_matches_counts (matchIds : list string) (st : State) :
  let st' := scrape_matches env user ev matchIds st in
  (successful st' + failed st'
   = successful st + failed st + length matchIds)%nat.
Proof.
  cbv zeta. induction matchIds as [|matchId rest IH] using rev_ind.
  - simpl. lia.
  - rewrite scrape_matches_snoc, length_app. simpl.
    destruct (match_step_counts
                (scrape_matches env user ev rest st) matchId)
      as [(-> & -> & _)|(-> & -> & _)]; lia.
Qed.

(** The error list holds one entry per failed match, each made of the
    identifier of a match of the run and a message. *)
Lemma scrape_matches_errors (matchIds : list string) (st : State) :
  let st' := scrape_matches env user ev matchIds st in
  ∃ es,
    errors st' = (errors st ++ es)%list ∧
    (failed st' = failed st + length es)%nat ∧
    Forall (λ e, ∃ matchId msg,
                   matchId ∈ matchIds ∧ e = error_entry matchId msg) es.
Proof.
  cbv zeta. induction matchIds as [|matchId rest IH] using rev_ind.
  - exists []. simpl. rewrite app_nil_r. split; [done|]. split; [lia|done].
  - rewrite scrape_matches_snoc.
    destruct IH as (es & He & Hf & Hall).
    destruct (match_step_counts
                (scrape_matches env user ev rest st) matchId)
      as [(_ & Hf' & He')|(_ & Hf' & msg & He')].
    + exists es. rewrite He', Hf'. split; [done|]. split; [done|].
      eapply Forall_impl; [exact Hall|]. simpl.
      intros e (m & msg & Hm & ->). exists m, msg. split; [|done].
      apply elem_of_app. by left.
    + exists (es ++ [error_entry matchId msg])%list.
      rewrite He', Hf', He, Hf, length_app, app_assoc. simpl.
      split; [done|]. split; [lia|].
      apply Forall_app. split.
      * eapply Forall_impl; [exact Hall|]. simpl.
        intros e (m & msg' & Hm & ->). exists m, msg'. split; [|done].
        apply elem_of_app. by left.
      * apply Forall_singleton. exists matchId, msg. split; [|done].
        apply elem_of_app. right. by apply list_elem_of_singleton.
Qed.

(** The [try] block of a match ends in the same way from every state. *)
Lemma scrape_match_outcome (matchId : string) (st : State) :
  (scrape_match env user ev matchId st).2
  = match match_failure env user ev matchId with
    | Some msg => inl msg
    | None => inr ()
    end.
Proof.
  unfold match_failure.
  destruct (uniform_scrape_match env user ev matchId)
    as (rows & cs & res & H).
  destruct (H st) as [-> _].
  destruct (H (init_state {| table := []; calls := [] |})) as [-> _].
  by destruct res as [msg|[]].
Qed.

(** The loop pushes the entries of the failing matches, in the order of
    the matches, and counts them. *)
Lemma scrape_matches_failure_entries (matchIds : list string) (st : State) :
  let st' := scrape_matches env user ev matchIds st in
  errors st' = (errors st ++ failure_entries env user ev matchIds)%list ∧
  (failed st' = failed st + length (failure_entries env user ev matchIds))%nat.
Proof.
  cbv zeta. induction matchIds as [|matchId rest IH] using rev_ind.
  - simpl. rewrite app_nil_r. split; [done|lia].
  - rewrite scrape_matches_snoc. destruct IH as [He Hf].
    unfold failure_entries in *. rewrite omap_app, length_app, app_assoc.
    rewrite <- He. simpl.
    set (st1 := scrape_matches env user ev rest st) in *.
    unfold match_step.
    pose proof (scrape_match_outcome matchId st1) as Ho.
    destruct (counts_scrape_match matchId st1) as (Hf1 & He1 & _).
    destruct (scrape_match env user ev matchId st1) as [st2 r].
    simpl in Ho, Hf1, He1. subst r.
    destruct (match_failure env user ev matchId) as [msg|]; simpl.
    + rewrite He1, Hf1, Hf. split; [done|lia].
    + rewrite app_nil_r, He1, Hf1, Hf. split; [done|lia].
Qed.

End Counters.

(** ** The run summary *)

(** A summary is only ever answered after the loop over a non-empty list
    of discovered matches. *)
Lemma handler_success (env : Env) (req : Request) (w w' : World)
    (s : RunSummary) :
  handler env req w = (w', Success s) →
  ∃ user ev w0 matchIds,
    matchIds ≠ [] ∧
    w' = world (scrape_matches env user ev matchIds (init_state w0)) ∧
    s = summary_of matchIds
          (scrape_matches env user ev matchIds (init_state w0)).
Proof.
  unfold handler.
  destruct (String.eqb (method req) "OPTIONS"); [done|].
  destruct (body req) as [msg|b]; [done|].
  destruct (missing (req_event_url b) || missing (req_event_name b)); [done|].
  destruct (get_user env) as [user|]; [|done].
  destruct (match_event _) as [eventId|]; [|done].
  unfold scrape_event.
  destruct (api2 env eventId) as [msg|status payload]; [done|].
  destruct (negb (ok status)); [done|].
  destruct payload as [msg|api2Data]; [done|].
  destruct (collect_match_ids api2Data) as [|matchId matchIds]; [done|].
  intros [= <- <-]. by eexists user, _, _, (matchId :: matchIds).
Qed.

(** The same with the request that led to it: its event reference names
    an event, and the matches of the run are those that discovery returned
    for this event. *)
Lemma handler_success_request (env : Env) (req : Request) (w w' : World)
    (s : RunSummary) :
  handler env req w = (w', Success s) →
  ∃ b user eventId status data,
    body req = inr b ∧
    get_user env = Some user ∧
    match_event (default "" (req_event_url b)) = Some eventId ∧
    api2 env eventId = Http status (inr data) ∧
    let st := scrape_matches env user (default "" (req_event_name b))
                (collect_match_ids data)
                (init_state (log_call (Discover eventId)
                               (log_call GetUser w))) in
    w' = world st ∧ s = summary_of (collect_match_ids data) st.
Proof.
  unfold handler.
  destruct (String.eqb (method req) "OPTIONS"); [done|].
  destruct (body req) as [msg|b]; [done|].
  destruct (missing (req_event_url b) || missing (req_event_name b)); [done|].
  destruct (get_user env) as [user|]; [|done].
  destruct (match_event _) as [eventId|] eqn:Eme; [|done].
  unfold scrape_event.
  destruct (api2 env eventId) as [msg|status payload] eqn:Eapi; [done|].
  destruct (negb (ok status)); [done|].
  destruct payload as [msg|api2Data]; [done|].
  destruct (collect_match_ids api2Data) as [|matchId matchIds] eqn:Eids;
    [done|].
  intros [= <- <-]. exists b, user, eventId, status, api2Data.
  rewrite Eids. by repeat split.
Qed.

(** C10. Every discovered match is counted exactly once, as successful or
    as failed: each turn of the loop adds one to exactly one of the two
    counters, so the loop adds the number of matches to their sum and the
    summary has successful + failed = total_matches. *)
Theorem C10_every_match_counted_once (env : Env) :
  (∀ user ev st matchId,
     let st' := match_step env user ev st matchId in
     (successful st' = S (successful st) ∧ failed st' = failed st) ∨
     (successful st' = successful st ∧ failed st' = S (failed st))) ∧
  (∀ user ev matchIds st,
     let st' := scrape_matches env user ev matchIds st in
     (successful st' + failed st'
      = successful st + failed st + length matchIds)%nat) ∧
  (∀ req w w' s,
     handler env req w = (w', Success s) →
     (sm_successful s + sm_failed s = total_matches s)%nat).
Proof.
  split; [|split].
  - intros user ev st matchId.
    destruct (match_step_counts env user ev st matchId)
      as [(? & ? & _)|(? & ? & _)]; auto.
  - intros. apply scrape_matches_counts.
  - intros req w w' s H.
    apply handler_success in H as (user & ev & w0 & ids & _ & _ & ->).
    simpl. by rewrite scrape_matches_counts.
Qed.

Lemma C10_every_match_counted_once_witness :
  ∃ w' s,
    handler Sample.env Sample.request Sample.empty_world = (w', Success s) ∧
    (sm_successful s + sm_failed s = total_matches s)%nat.
Proof.
  eexists _, _. split.
  - vm_compute. reflexivity.
  - eapply (proj2 (proj2 (C10_every_match_counted_once Sample.env))
              Sample.request Sample.empty_world).
    vm_compute. reflexivity.
Defined.

Lemma json_field_errors (s : RunSummary) :
  json_field "errors" (summary_json s)
  = (λ es, JsonArray (JsonString <$> es)) <$> sm_errors s.
Proof. unfold summary_json. by destruct (sm_errors s). Qed.

(** C7 (amended). In the summary the [errors] field is present exactly when
    at least one match failed. It then holds one entry per failed match, in
    the order in which the matches were discovered for the event that the
    request names, and each entry is the string "Match <match id>:
    <message>" made of the identifier of the failed match and of the
    message with which its [try] block ended (not an object with
    [match_id] and [message] fields). Every discovered match that fails
    has its entry. *)
Theorem C7_errors_are_strings (env : Env) (req : Request) (w w' : World)
    (s : RunSummary) :
  handler env req w = (w', Success s) →
  (is_Some (json_field "errors" (summary_json s)) ↔ (0 < sm_failed s)%nat) ∧
  ∃ b user eventId status data,
    body req = inr b ∧
    get_user env = Some user ∧
    match_event (default "" (req_event_url b)) = Some eventId ∧
    api2 env eventId = Http status (inr data) ∧
    let ev := default "" (req_event_name b) in
    let matchIds := collect_match_ids data in
    total_matches s = length matchIds ∧
    sm_failed s = length (failure_entries env user ev matchIds) ∧
    (∀ matchId st,
       (scrape_match env user ev matchId st).2
       = match match_failure env user ev matchId with
         | Some msg => inl msg
         | None => inr ()
         end) ∧
    (∀ items,
       json_field "errors" (summary_json s) = Some (JsonArray items) →
       items = JsonString <$> failure_entries env user ev matchIds ∧
       length items = sm_failed s ∧
       Forall (λ item, ∃ matchId msg,
                 matchId ∈ matchIds ∧
                 (∀ st, (scrape_match env user ev matchId st).2 = inl msg) ∧
                 item = JsonString (error_entry matchId msg)) items) ∧
    (∀ matchId msg st,
       matchId ∈ matchIds →
       (scrape_match env user ev matchId st).2 = inl msg →
       ∃ items,
         json_field "errors" (summary_json s) = Some (JsonArray items) ∧
         JsonString (error_entry matchId msg) ∈ items).
Proof.
  intros H.
  apply handler_success_request in H
    as (b & user & eventId & status & data & Hb & Hu & Hme & Hapi & H).
  cbv zeta in H. destruct H as [_ ->].
  set (ev := default "" (req_event_name b)).
  set (ids := collect_match_ids data).
  set (w0 := log_call (Discover eventId) (log_call GetUser w)).
  rewrite json_field_errors.
  destruct (scrape_matches_failure_entries env user ev ids (init_state w0))
    as [He Hf].
  simpl in He, Hf. unfold summary_of.
  cbn [sm_errors sm_failed total_matches]. rewrite He, Hf.
  assert (∀ id msg,
            id ∈ ids → match_failure env user ev id = Some msg →
            error_entry id msg ∈ failure_entries env user ev ids) as Hin.
  { intros id msg Hid Hm. unfold failure_entries.
    apply list_elem_of_omap. exists id. split; [done|]. by rewrite Hm. }
  assert (Forall (λ e, ∃ id msg,
                    id ∈ ids ∧
                    (∀ st, (scrape_match env user ev id st).2 = inl msg) ∧
                    e = error_entry id msg)
                 (failure_entries env user ev ids)) as Hall.
  { apply Forall_forall. intros e He'. unfold failure_entries in He'.
    apply list_elem_of_omap in He' as (id & Hid & Hm).
    destruct (match_failure env user ev id) as [msg|] eqn:Em; [|done].
    injection Hm as <-. exists id, msg. split; [done|]. split; [|done].
    intros st. by rewrite scrape_match_outcome, Em. }
  split.
  { destruct (failure_entries env user ev ids); simpl.
    - split; [by intros [? [=]]|lia].
    - split; [lia|eauto]. }
  exists b, user, eventId, status, data.
  do 4 (split; [done|]). cbv zeta. fold ev ids.
  split; [done|]. split; [done|].
  split; [intros; apply scrape_match_outcome|]. split.
  - intros items Hitems.
    destruct (failure_entries env user ev ids) as [|e es] eqn:Ees;
      [done|].
    assert (items = JsonString <$> (e :: es)) as ->
      by (simpl in Hitems; by injection Hitems as <-).
    split; [done|]. split; [by rewrite length_fmap|].
    apply Forall_fmap. eapply Forall_impl; [exact Hall|]. simpl.
    intros x (id & msg & ? & ? & ->). eauto.
  - intros id msg st Hid Hthrow.
    rewrite scrape_match_outcome in Hthrow.
    destruct (match_failure env user ev id) as [msg'|] eqn:Em; [|done].
    injection Hthrow as ->. specialize (Hin id msg Hid Em).
    destruct (failure_entries env user ev ids) as [|e es] eqn:Ees.
    { by apply elem_of_nil in Hin. }
    exists (JsonString <$> (e :: es)). split; [done|].
    by apply list_elem_of_fmap_2.
Qed.

(** In the sample run the matches m1, m2 and m3 are discovered and only m2
    fails. *)
Lemma C7_errors_are_strings_witness :
  failure_entries Sample.env "u1" "Event 1" ["m1"; "m2"; "m3"]
  = ["Match m2: Failed to fetch players data: 500"] ∧
  ∃ w' s,
    handler Sample.env Sample.request Sample.empty_world = (w', Success s) ∧
    json_field "errors" (summary_json s)
    = Some (JsonArray
              [JsonString "Match m2: Failed to fetch players data: 500"]) ∧
    (is_Some (json_field "errors" (summary_json s)) ↔ (0 < sm_failed s)%nat).
Proof.
  split; [vm_compute; reflexivity|].
  eexists _, _. split; [vm_compute; reflexivity|].
  split; [vm_compute; reflexivity|].
  eapply (C7_errors_are_strings Sample.env Sample.request Sample.empty_world).
  vm_compute. reflexivity.
Defined.

(** C7, as worded, fails: the entry recorded for the failed match of the
    sample run is a string, not an object. *)
Lemma C7_counterexample :
  (∃ w' s,
     handler Sample.env Sample.request Sample.empty_world = (w', Success s) ∧
     json_field "errors" (summary_json s)
     = Some (JsonArray
               [JsonString "Match m2: Failed to fetch players data: 500"])) ∧
  ¬ errors_are_objects.
Proof.
  split.
  - eexists _, _. split; vm_compute; reflexivity.
  - intros H.
    destruct (handler Sample.env Sample.request Sample.empty_world)
      as [w' r] eqn:E.
    assert (∃ s, r = Success s ∧
                 json_field "errors" (summary_json s)
                 = Some (JsonArray
                     [JsonString "Match m2: Failed to fetch players data: 500"]))
      as (s & -> & Hs).
    { vm_compute in E. injection E as <- <-. eexists. split; [done|].
      vm_compute. reflexivity. }
    destruct (H _ _ _ _ _ E) as [_ Hobj].
    specialize (Hobj _ Hs). apply Forall_cons in Hobj as [(id & msg & [=]) _].
Qed.

(** ** One match *)

Section OneMatch.

Variable env : Env.
Variables user ev matchId : string.

Lemma fetch_document_parsed {A} (c : Call) (status : Z) (props : A)
    (what : string) (st : State) :
  ok status = true →
  fetch_document c (Http status (Parsed props)) what st
  = (with_world (log_call c) st, inr props).
Proof. intros Hok. unfold fetch_document, bind. simpl. by rewrite Hok. Qed.



(** The players whose rows the store accepts, up to the first one that is
    refused or unreadable: their rows are written in order, one upsert
    call each, and the loop goes on with the next player. *)
Lemma process_players_accepted (counts : Counts) (ps : list Player)
    (rest : list (option Player)) :
  ∀ (i : nat) (st : State),
    Forall (λ r, upsert_error env r = None)
           (built_rows user ev matchId counts i ps) →
    ∃ st1,
      process_players env user ev matchId counts i
        ((Some <$> ps) ++ rest) st
      = process_players env user ev matchId counts (i + length ps) rest st1
      ∧ table (world st1)
        = upserts (built_rows user ev matchId counts i ps)
            (table (world st))
      ∧ calls (world st1)
        = (calls (world st)
           ++ (Upsert <$> built_rows user ev matchId counts i ps))%list
      ∧ successful st1 = successful st ∧ failed st1 = failed st
      ∧ errors st1 = errors st.
Proof.
  induction ps as [|q ps IH]; intros i st Hacc.
  - exists st. simpl. rewrite Nat.add_0_r, app_nil_r. done.
  - simpl in Hacc. apply Forall_cons in Hacc as [Hq Hacc].
    csimpl. unfold bind at 1. simpl. unfold bind at 1. simpl.
    rewrite Hq. unfold bind at 1. simpl.
    destruct (IH (S i)
                (track_summary (object_prototype env) (p_name q)
                   (calc_count_180s
                      (at_or (distribution counts) i ∅))
                   (with_world
                      (write_row (build_record user ev matchId counts i q))
                      (with_world
                         (log_call
                            (Upsert (build_record user ev matchId counts i q)))
                         st))) Hacc)
      as (st1 & Heq & Ht & Hc & Hs & Hf & He).
    exists st1. rewrite Nat.add_succ_r. simpl in *.
    split; [exact Heq|]. split; [exact Ht|].
    split; [by rewrite Hc, <- app_assoc|]. done.
Qed.

End OneMatch.

(** ** Failure at the match boundary *)

Section MatchBoundary.

Variable env : Env.
Variables user ev : string.




(** A match in which the store refuses the row of one player. *)
Lemma scrape_match_upsert_rejected (matchId : string) (s1 s2 : Z)
    (before : list Player) (p : Player) (after : list (option Player))
    (counts : Counts) (msg : string) (st : State) :
  ok s1 = true → ok s2 = true →
  players_page env matchId
  = Http s1 (Parsed ((Some <$> before) ++ Some p :: after)%list) →
  counts_page env matchId = Http s2 (Parsed counts) →
  Forall (λ r, upsert_error env r = None)
         (built_rows user ev matchId counts 0 before) →
  upsert_error env (build_record user ev matchId counts (length before) p)
  = Some msg →
  ∃ st1,
    scrape_match env user ev matchId st
    = (with_world
         (log_call
            (Upsert (build_record user ev matchId counts (length before) p)))
         st1,
       inl ("Supabase upsert failed: " ++ msg)) ∧
    table (world st1)
    = upserts (built_rows user ev matchId counts 0 before)
        (table (world st)) ∧
    calls (world st1)
    = (calls (world st)
       ++ [FetchPlayers matchId; FetchCounts matchId]
       ++ (Upsert <$> built_rows user ev matchId counts 0 before))%list ∧
    successful st1 = successful st ∧ failed st1 = failed st ∧
    errors st1 = errors st.
Proof.
  intros Hok1 Hok2 Hpp Hcp Hacc Hrej. unfold scrape_match.
  unfold bind at 1. rewrite Hpp, fetch_document_parsed by done.
  unfold bind at 1. rewrite Hcp, fetch_document_parsed by done.
  unfold bind at 1.
  destruct (process_players_accepted env user ev matchId counts before
              (Some p :: after) 0%nat
              (with_world (log_call (FetchCounts matchId))
                 (with_world (log_call (FetchPlayers matchId)) st)) Hacc)
    as (st1 & Heq & Ht & Hc & Hs & Hf & He).
  rewrite Heq. simpl. unfold bind at 1. simpl. unfold bind at 1. simpl.
  rewrite Hrej. exists st1. simpl in *.
  split; [done|]. split; [done|].
  split; [by rewrite Hc, <- !app_assoc|]. done.
Qed.

(** C3 (amended). When the upsert of one player's record fails, the error
    is thrown to the match boundary: the rows of the players before it
    in the match stay written, no upsert is attempted for the players
    after it, the match is counted as failed with the entry
    "Match <id>: Supabase upsert failed: <message>", and the run goes on
    with the next match. *)
Theorem C3_upsert_failure_fails_the_match (matchId : string) (s1 s2 : Z)
    (before : list Player) (p : Player) (after : list (option Player))
    (counts : Counts) (msg : string) (st : State) :
  ok s1 = true → ok s2 = true →
  players_page env matchId
  = Http s1 (Parsed ((Some <$> before) ++ Some p :: after)%list) →
  counts_page env matchId = Http s2 (Parsed counts) →
  Forall (λ r, upsert_error env r = None)
         (built_rows user ev matchId counts 0 before) →
  upsert_error env (build_record user ev matchId counts (length before) p)
  = Some msg →
  let st' := match_step env user ev st matchId in
  let written := built_rows user ev matchId counts 0 before in
  table (world st') = upserts written (table (world st)) ∧
  calls (world st')
  = (calls (world st)
     ++ [FetchPlayers matchId; FetchCounts matchId]
     ++ (Upsert <$> written)
     ++ [Upsert
           (build_record user ev matchId counts (length before) p)])%list ∧
  successful st' = successful st ∧
  failed st' = S (failed st) ∧
  errors st'
  = (errors st
     ++ [error_entry matchId ("Supabase upsert failed: " ++ msg)])%list ∧
  ∀ rest,
    scrape_matches env user ev (matchId :: rest) st
    = scrape_matches env user ev rest st'.
Proof.
  intros Hok1 Hok2 Hpp Hcp Hacc Hrej. cbv zeta.
  destruct (scrape_match_upsert_rejected matchId s1 s2 before p after
              counts msg st)
    as (st1 & Heq & Ht & Hc & Hs & Hf & He); try done.
  assert (match_step env user ev st matchId
          = record_failure matchId ("Supabase upsert failed: " ++ msg)
              (with_world
                 (log_call
                    (Upsert (build_record user ev matchId counts
                               (length before) p))) st1)) as Hstep.
  { unfold match_step. by rewrite Heq. }
  unfold scrape_matches. simpl. rewrite !Hstep. simpl.
  rewrite Ht, Hc, Hs, Hf, He, <- !app_assoc. done.
Qed.

End MatchBoundary.

Lemma C3_upsert_failure_fails_the_match_witness :
  failed (match_step Sample.env_reject_alice "u1" "Event 1"
            (init_state Sample.empty_world) "m1") = 1%nat.
Proof.
  destruct (C3_upsert_failure_fails_the_match Sample.env_reject_alice
              "u1" "Event 1" "m1" 200 200 [] Sample.alice [Some Sample.bob]
              Sample.counts "timeout" (init_state Sample.empty_world))
    as (_ & _ & _ & H & _);
    [reflexivity|reflexivity|reflexivity|reflexivity|constructor|
     reflexivity|exact H].
Defined.

(** C3, as worded, fails: in a match of Alice and Bob where the store
    refuses Alice's row, Bob's row is never written although the store
    would accept it, and the match is counted as failed. *)
Lemma C3_counterexample :
  let st' := match_step Sample.env_reject_alice "u1" "Event 1"
               (init_state Sample.empty_world) "m1" in
  upsert_error Sample.env_reject_alice
    (build_record "u1" "Event 1" "m1" Sample.counts 0 Sample.alice)
  = Some "timeout" ∧
  upsert_error Sample.env_reject_alice
    (build_record "u1" "Event 1" "m1" Sample.counts 1 Sample.bob) = None ∧
  table (world st') = [] ∧
  failed st' = 1%nat ∧
  ¬ upsert_failure_spares_match.
Proof.
  cbv zeta.
  split; [vm_compute; reflexivity|]. split; [vm_compute; reflexivity|].
  split; [vm_compute; reflexivity|]. split; [vm_compute; reflexivity|].
  intros H.
  destruct (H Sample.env_reject_alice "u1" "Event 1" "m1"
              [Some Sample.alice; Some Sample.bob] Sample.counts
              (init_state Sample.empty_world) 0%nat Sample.alice "timeout")
    as [Hfailed _]; try reflexivity.
  vm_compute in Hfailed. discriminate Hfailed.
Qed.

(** ** The run goes on after a failed match *)

Section RunGoesOn.

Variable env : Env.
Variables user ev : string.


Lemma scrape_matches_cons (matchId : string) (rest : list string)
    (st : State) :
  scrape_matches env user ev (matchId :: rest) st
  = scrape_matches env user ev rest (match_step env user ev st matchId).
Proof. done. Qed.




End RunGoesOn.


(** ** Fatal errors *)

Local Ltac no_match_work :=
  simpl; split; [done|]; split;
  [ eexists; split;
    [ unfold log_call; simpl;
      first [ symmetry; apply app_nil_r
            | reflexivity
            | rewrite <- app_assoc; reflexivity ]
    | repeat constructor ]
  | split; [done|] ].

(** C6. When the event reference holds no [event/<token>], or discovery
    of the event that the request names finds no match identifier, the
    handler answers with an error and has made no per-match fetch and no
    write: the table is as before and the calls made are none of
    [FetchPlayers], [FetchCounts], [Upsert]. What discovery would find for
    other events plays no part. Past the earlier checks the answers are
    the 400 responses "Invalid event URL format" and "No matches found in
    event". *)
Theorem C6_fatal_before_any_match_work (env : Env) (req : Request)
    (w : World) :
  (∀ b, body req = inr b →
        match_event (default "" (req_event_url b)) = None) ∨
  (∀ b eventId status data,
     body req = inr b →
     match_event (default "" (req_event_url b)) = Some eventId →
     api2 env eventId = Http status (inr data) →
     collect_match_ids data = []) →
  let w' := (handler env req w).1 in
  let resp := (handler env req w).2 in
  table w' = table w ∧
  (∃ cs, calls w' = (calls w ++ cs)%list ∧
         Forall (λ c, is_downstream c = false) cs) ∧
  (∀ s, resp ≠ Success s) ∧
  (∀ b user,
     String.eqb (method req) "OPTIONS" = false →
     body req = inr b →
     missing (req_event_url b) || missing (req_event_name b) = false →
     get_user env = Some user →
     (match_event (default "" (req_event_url b)) = None →
      resp = Failure 400 "Invalid event URL format") ∧
     (∀ eventId status data,
        match_event (default "" (req_event_url b)) = Some eventId →
        api2 env eventId = Http status (inr data) →
        ok status = true →
        resp = Failure 400 "No matches found in event")).
Proof.
  intros H. cbv zeta. unfold handler.
  destruct (String.eqb (method req) "OPTIONS") eqn:Em.
  { no_match_work. intros; congruence. }
  destruct (body req) as [msg|b] eqn:Eb.
  { no_match_work. intros; congruence. }
  destruct (missing (req_event_url b) || missing (req_event_name b)) eqn:Ems.
  { no_match_work. intros b' user' _ [= <-]. congruence. }
  destruct (get_user env) as [user|] eqn:Eu.
  2: { no_match_work. intros; congruence. }
  destruct (match_event _) as [eventId|] eqn:Eme.
  2: { no_match_work. intros b' user' _ [= <-] _ _. split; [done|].
       intros; congruence. }
  unfold scrape_event.
  destruct (api2 env eventId) as [msg|status payload] eqn:Eapi.
  { no_match_work. intros b' user' _ [= <-] _ _. split; [congruence|].
    intros e' s' d' He'. congruence. }
  destruct (negb (ok status)) eqn:Eok.
  { no_match_work. intros b' user' _ [= <-] _ _. split; [congruence|].
    intros e' s' d' He' Ha' Hok'. rewrite Eme in He'. injection He' as <-.
    assert (status = s') as -> by congruence.
    rewrite Hok' in Eok. discriminate Eok. }
  destruct payload as [msg|api2Data].
  { no_match_work. intros b' user' _ [= <-] _ _. split; [congruence|].
    intros e' s' d' He' Ha' Hok'. rewrite Eme in He'. injection He' as <-.
    congruence. }
  destruct (collect_match_ids api2Data) as [|matchId matchIds] eqn:Eids.
  { no_match_work. intros b' user' _ [= <-] _ _. split; [congruence|done]. }
  exfalso. destruct H as [H|H].
  - specialize (H b eq_refl). congruence.
  - specialize (H b eventId status api2Data eq_refl Eme Eapi). congruence.
Qed.

(** Discovery finds no match for the event E1 of the request, and matches
    for every other event. *)
Lemma C6_fatal_before_any_match_work_witness :
  collect_match_ids Sample.event ≠ [] ∧
  api2 Sample.env_E1_empty "E2" = Http 200 (inr Sample.event) ∧
  (handler Sample.env_E1_empty Sample.request Sample.empty_world).2
  = Failure 400 "No matches found in event" ∧
  (handler Sample.env_E1_empty Sample.request Sample.empty_world).1
  = {| table := []; calls := [GetUser; Discover "E1"] |} ∧
  (∀ s, (handler Sample.env_E1_empty Sample.request Sample.empty_world).2
        ≠ Success s).
Proof.
  split; [discriminate|]. split; [reflexivity|]. split; [reflexivity|].
  split; [reflexivity|].
  apply (C6_fatal_before_any_match_work Sample.env_E1_empty Sample.request
           Sample.empty_world).
  right. intros b eventId status data [= <-] [= <-] [= <- <-]. reflexivity.
Defined.

(** ** The leaderboard *)

Section LeaderboardOrder.

Import Leaderboard.

Lemma insert_desc_perm (x : PlayerStats) (l : list PlayerStats) :
  insert_desc x l ≡ₚ x :: l.
Proof.
  induction l as [|y l IH]; simpl; [done|].
  destruct (Qle_bool _ _); [|done].
  rewrite IH. apply Permutation_swap.
Qed.

Lemma order_desc_perm (l : list PlayerStats) : order_desc l ≡ₚ l.
Proof.
  induction l as [|x l IH]; simpl; [done|].
  by rewrite insert_desc_perm, IH.
Qed.

Lemma insert_desc_sorted (x : PlayerStats) (l : list PlayerStats) :
  StronglySorted stands_before l → StronglySorted stands_before (insert_desc x l).
Proof.
  induction 1 as [|y l Hl IH Hy]; simpl.
  - repeat constructor.
  - destruct (Qle_bool (ps_weighted_3da x) (ps_weighted_3da y)) eqn:E.
    + apply Qle_bool_iff in E. constructor; [done|].
      rewrite insert_desc_perm. by constructor.
    + assert (ps_weighted_3da y <= ps_weighted_3da x)%Q as Hyx.
      { apply Qlt_le_weak, Qnot_le_lt. intros Hle.
        apply Qle_bool_iff in Hle. congruence. }
      constructor; [by constructor|]. constructor; [done|].
      eapply Forall_impl; [exact Hy|]. unfold stands_before. simpl.
      intros z Hz. by eapply Qle_trans.
Qed.

Lemma order_desc_sorted (l : list PlayerStats) :
  StronglySorted stands_before (order_desc l).
Proof.
  induction l as [|x l IH]; simpl; [constructor|].
  by apply insert_desc_sorted.
Qed.

Lemma StronglySorted_lookup {A} (R : A → A → Prop) (l : list A) :
  StronglySorted R l →
  ∀ i j a b, (i < j)%nat → l !! i = Some a → l !! j = Some b → R a b.
Proof.
  induction 1 as [|x l Hl IH Hx]; intros i j a b Hij Hi Hj; [done|].
  destruct j as [|j]; [lia|]. simpl in Hj. destruct i as [|i].
  - injection Hi as <-. eapply Forall_lookup_1; eauto.
  - simpl in Hi. eapply (IH i j); [lia|done..].
Qed.

Lemma or_zeroQ_eq (q : Q) : (or_zeroQ q == q)%Q.
Proof.
  unfold or_zeroQ. destruct (Z.eqb_spec (Qnum q) 0) as [H|H]; [|reflexivity].
  unfold Qeq. simpl. rewrite H. lia.
Qed.

(** C9. For every player with at least one record the leaderboard has an
    entry whose weighted average is the sum of average times legs played
    over the sum of legs played, taken over the records of that player;
    records (80, 5 legs) and (90, 10 legs) give 260/3 = 86.666...; the
    entries stand in descending order of weighted average and the rank
    of an entry is its position, counted from 1. *)
Theorem C9_weighted_average_and_ranking (rs : list StatRecord) :
  (∀ p, p ∈ sr_name <$> rs →
     ∃ i e, leaderboard rs !! i = Some e ∧ lb_name e = p ∧
            (lb_weighted_3da e
             == weighted_sum (records_of p rs)
                / inject_Z (total_legs (records_of p rs)))%Q) ∧
  (∃ e, leaderboard [mkStatRecord "A" 80 5; mkStatRecord "A" 90 10] = [e] ∧
        rank e = 1%nat ∧ (lb_weighted_3da e == 260 # 3)%Q) ∧
  (∀ i j a b, (i < j)%nat →
     leaderboard rs !! i = Some a → leaderboard rs !! j = Some b →
     (lb_weighted_3da b <= lb_weighted_3da a)%Q) ∧
  (∀ i e, leaderboard rs !! i = Some e → rank e = (i + 1)%nat).
Proof.
  unfold leaderboard, format_players.
  split; [|split; [|split]].
  - intros p Hp.
    assert ({| ps_name := p;
               ps_weighted_3da := weighted_average (records_of p rs);
               ps_legs_played := total_legs (records_of p rs) |}
            ∈ order_desc (player_stats rs)) as Hin.
    { rewrite order_desc_perm. unfold player_stats.
      apply list_elem_of_fmap. eexists. split; [done|].
      by apply elem_of_remove_dups. }
    apply list_elem_of_lookup in Hin as [i Hi].
    eexists i, _. rewrite list_lookup_imap, Hi. simpl.
    split; [done|]. split; [done|]. apply or_zeroQ_eq.
  - eexists. split; [vm_compute; reflexivity|]. split; [done|].
    vm_compute. reflexivity.
  - intros i j a b Hij. rewrite !list_lookup_imap.
    destruct (order_desc (player_stats rs) !! i) as [x|] eqn:Hi; [|done].
    destruct (order_desc (player_stats rs) !! j) as [y|] eqn:Hj; [|done].
    simpl. intros [= <-] [= <-]. simpl. rewrite !or_zeroQ_eq.
    eapply (StronglySorted_lookup stands_before); eauto using order_desc_sorted.
  - intros i e. rewrite list_lookup_imap.
    destruct (order_desc (player_stats rs) !! i); [|done].
    simpl. by intros [= <-].
Qed.

End LeaderboardOrder.

Lemma C9_weighted_average_and_ranking_witness :
  ∃ i e,
    Leaderboard.leaderboard
      [Leaderboard.mkStatRecord "A" 80 5; Leaderboard.mkStatRecord "B" 60 4;
       Leaderboard.mkStatRecord "A" 90 10] !! i = Some e ∧
    Leaderboard.lb_name e = "B".
Proof.
  destruct (proj1 (C9_weighted_average_and_ranking
                     [Leaderboard.mkStatRecord "A" 80 5;
                      Leaderboard.mkStatRecord "B" 60 4;
                      Leaderboard.mkStatRecord "A" 90 10]) "B")
    as (i & e & Hi & He & _).
  - apply elem_of_cons. right. apply elem_of_cons. by left.
  - by exists i, e.
Defined.

(** * Further properties of the code *)

(** ** Record building *)

Section RecordFields.

Variables user ev matchId : string.
Variable p : Player.

(** X1. With no negative count in the distribution the three tallies are
    nested: 0 <= count_180s <= count_140_plus <= count_100_plus. *)
Theorem X1_tallies_nested (counts : Counts) (i : nat) :
  (∀ k v, at_or (distribution counts) i ∅ !! k = Some v → 0 ≤ v) →
  let r := build_record user ev matchId counts i p in
  0 ≤ count_180s r ∧ count_180s r ≤ count_140_plus r ∧
  count_140_plus r ≤ count_100_plus r.
Proof.
  intros Hpos. cbv zeta. simpl.
  set (dist := at_or (distribution counts) i ∅) in *.
  assert (∀ k, 0 ≤ default 0 (dist !! k)) as Hd.
  { intros k. destruct (dist !! k) as [v|] eqn:E; simpl; [eauto|lia]. }
  unfold calc_count_100_plus, calc_count_140_plus, calc_count_180s.
  rewrite !add_if_truthy_default, !or_zero_default.
  pose proof (Hd "100"). pose proof (Hd "140"). pose proof (Hd "141").
  pose proof (Hd "160"). pose proof (Hd "171"). pose proof (Hd "180"). lia.
Qed.

(** X2. Only the scores 100, 140, 141, 160, 171 and 180 are tallied: an
    entry of the distribution under any other key (150, say) changes none
    of the three counts. *)
Theorem X2_other_scores_not_tallied (dist : gmap string Z) (k : string)
    (v : Z) :
  k ∉ tally_keys →
  calc_count_180s (<[k := v]> dist) = calc_count_180s dist ∧
  calc_count_140_plus (<[k := v]> dist) = calc_count_140_plus dist ∧
  calc_count_100_plus (<[k := v]> dist) = calc_count_100_plus dist.
Proof.
  intros Hk. unfold tally_keys in Hk.
  repeat (apply not_elem_of_cons in Hk as [? Hk]).
  unfold calc_count_100_plus, calc_count_140_plus, calc_count_180s.
  rewrite !add_if_truthy_default, !or_zero_default.
  by rewrite !lookup_insert_ne by done.
Qed.

(** X3. A player whose index is missing from (or [null] in) one of the
    three arrays of the counts page still gets a record, with defaults for
    the fields read from that array: the three counts 0 and
    [highest_score] [-Infinity] for [distribution], [null] for the
    first-nine average, and [null] or 0 for the checkout fields. An index
    at or beyond the length of an array is such a missing index. *)
Theorem X3_missing_stats_default (counts : Counts) (i : nat) :
  let r := build_record user ev matchId counts i p in
  (mjoin (distribution counts !! i) = None →
   count_180s r = 0 ∧ count_140_plus r = 0 ∧ count_100_plus r = 0 ∧
   highest_score r = NegInfinity) ∧
  (mjoin (first_nine counts !! i) = None → first_nine_avg r = JNull) ∧
  (mjoin (checkout_stats counts !! i) = None →
   checkout_efficiency r = JNull ∧ checkout_opportunities r = JNum 0 ∧
   checkouts_hit r = JNum 0 ∧ highest_checkout r = JNull ∧
   avg_finish r = JNull) ∧
  (∀ (A : Type) (a : list (option A)),
     (length a ≤ i)%nat → mjoin (a !! i) = None).
Proof.
  cbv zeta. unfold build_record, at_or. simpl.
  split; [by intros ->|]. split; [by intros ->|]. split; [by intros ->|].
  intros A a Hlen. by rewrite lookup_ge_None_2.
Qed.

(** [Math.max] does not depend on the order of its arguments. *)
Lemma Math_max_same_elements (xs ys : list Z) :
  (∀ x, x ∈ xs ↔ x ∈ ys) → Math_max xs = Math_max ys.
Proof.
  intros Hxy. destruct xs as [|x xs].
  - destruct ys as [|y ys]; [done|].
    exfalso. eapply elem_of_nil, Hxy, elem_of_cons. by left.
  - destruct (Math_max_spec (x :: xs)) as (m & -> & Hm & Hle); [done|].
    destruct (Math_max_spec ys) as (m' & -> & Hm' & Hle').
    { intros ->. eapply elem_of_nil, Hxy, elem_of_cons. by left. }
    f_equal. apply Hxy in Hm. apply Hxy in Hm'.
    specialize (Hle _ Hm'). specialize (Hle' _ Hm). lia.
Qed.

(** X4. [highest_score] reads the keys of the distribution only, not the
    counts: two distributions with the same keys have the same
    [highest_score], so a score listed with count 0 still counts as the
    highest. *)
Theorem X4_highest_score_reads_keys_only (d1 d2 : gmap string Z) :
  dom d1 = dom d2 → calc_highest_score d1 = calc_highest_score d2.
Proof.
  intros Hdom. unfold calc_highest_score, Object_keys.
  apply Math_max_same_elements. intros x.
  rewrite !list_elem_of_fmap.
  assert (∀ d : gmap string Z, ∀ k, k ∈ (map_to_list d).*1 ↔ k ∈ dom d)
    as Hkeys.
  { intros d k. rewrite elem_of_dom, list_elem_of_fmap. split.
    - intros ([k' v] & -> & Hkv). apply elem_of_map_to_list in Hkv. eauto.
    - intros [v Hv]. exists (k, v). split; [done|].
      by apply elem_of_map_to_list. }
  split; intros (k & -> & Hk); exists k; (split; [done|]);
    apply Hkeys; apply Hkeys in Hk; congruence.
Qed.

(** X5. For a distribution with at least one key, all keys decimal
    numerals, [highest_score] is the greatest key. *)
Theorem X5_highest_score_is_greatest_key (dist : gmap string Z) :
  dist ≠ ∅ →
  (∀ k, is_Some (dist !! k) → ∃ n : N, k = pretty n) →
  ∃ n : N,
    calc_highest_score dist = Fin (Z.of_N n) ∧
    is_Some (dist !! pretty n) ∧
    ∀ n' : N, is_Some (dist !! pretty n') → (n' ≤ n)%N.
Proof. apply highest_score_numeric_keys. Qed.

End RecordFields.

Lemma X1_tallies_nested_witness :
  let r := build_record "u1" "Event 1" "m1" Sample.counts 0 Sample.alice in
  0 ≤ count_180s r ∧ count_180s r ≤ count_140_plus r ∧
  count_140_plus r ≤ count_100_plus r.
Proof.
  apply (X1_tallies_nested "u1" "Event 1" "m1" Sample.alice Sample.counts 0).
  intros k v. change (at_or (distribution Sample.counts) 0 ∅)
    with Sample.dist. unfold Sample.dist. intros Hkv.
  apply lookup_insert_Some in Hkv as [[_ <-]|[_ Hkv]]; [lia|].
  apply lookup_insert_Some in Hkv as [[_ <-]|[_ Hkv]]; [lia|].
  apply lookup_insert_Some in Hkv as [[_ <-]|[_ Hkv]]; [lia|].
  by rewrite lookup_empty in Hkv.
Defined.

Lemma X2_other_scores_not_tallied_witness :
  calc_count_140_plus (<["150" := 4]> Sample.dist)
  = calc_count_140_plus Sample.dist.
Proof.
  apply (X2_other_scores_not_tallied Sample.dist "150" 4).
  unfold tally_keys. intros H.
  repeat (apply elem_of_cons in H as [H|H]; [discriminate H|]).
  by apply elem_of_nil in H.
Defined.

Lemma X3_missing_stats_default_witness :
  highest_checkout
    (build_record "u1" "Event 1" "m1" Sample.counts 1 Sample.bob) = JNull ∧
  count_180s
    (build_record "u1" "Event 1" "m1" Sample.counts 1 Sample.bob) = 0.
Proof.
  destruct (X3_missing_stats_default "u1" "Event 1" "m1" Sample.bob
              Sample.counts 1) as (Hd & _ & Hc & _).
  split.
  - apply Hc. reflexivity.
  - apply Hd. reflexivity.
Defined.

Lemma X4_highest_score_reads_keys_only_witness :
  calc_highest_score (<["180" := 0]> ∅) = calc_highest_score (<["180" := 7]> ∅).
Proof.
  apply X4_highest_score_reads_keys_only. by rewrite !dom_insert_L.
Defined.

Lemma X5_highest_score_is_greatest_key_witness :
  ∃ n : N, calc_highest_score (<["180" := 2]> ∅) = Fin (Z.of_N n).
Proof.
  destruct (X5_highest_score_is_greatest_key (<["180" := 2]> ∅))
    as (n & Hn & _).
  - intros H. apply (f_equal (λ m : gmap string Z, m !! "180")) in H.
    by rewrite lookup_insert_eq, lookup_empty in H.
  - intros k [v Hk]. apply lookup_insert_Some in Hk as [[<- _]|[_ Hk]].
    + by exists 180%N.
    + by rewrite lookup_empty in Hk.
  - by exists n.
Defined.

(** ** The event reference *)

Section EventReference.

Lemma drop_prefix_Some (p s rest : string) :
  drop_prefix p s = Some rest → s = p ++ rest.
Proof.
  revert s. induction p as [|a p IH]; intros s; simpl.
  - by intros [= ->].
  - destruct s as [|b s]; [done|].
    destruct (Ascii.eqb_spec a b) as [->|]; [|done].
    intros H. by rewrite (IH _ H).
Qed.

Lemma drop_prefix_app (p rest : string) : drop_prefix p (p ++ rest) = Some rest.
Proof.
  induction p as [|a p IH]; simpl; [done|]. by rewrite Ascii.eqb_refl.
Qed.

Lemma take_non_slash_spec (s : string) :
  (slash ∉ chars (take_non_slash s)) ∧
  ∃ post, s = take_non_slash s ++ post ∧ ends_token post.
Proof.
  induction s as [|c s (Hno & post & Hs & Hpost)]; simpl.
  - split; [apply not_elem_of_nil|]. exists "". split; [done|by left].
  - destruct (Ascii.eqb_spec c "/") as [->|Hc]; simpl.
    + split; [apply not_elem_of_nil|]. exists (String "/" s).
      split; [done|]. right. eauto.
    + split.
      * apply not_elem_of_cons. split; [unfold slash; congruence|done].
      * exists post. split; [|done]. by rewrite Hs at 1.
Qed.

(** X6. The event id taken from the reference is never empty and holds no
    slash, and the reference reads [... event/<id>] followed by a slash or
    by nothing. *)
Theorem X6_match_event_sound (event_url eventId : string) :
  match_event event_url = Some eventId →
  eventId ≠ "" ∧ (slash ∉ chars eventId) ∧
  ∃ pre post,
    event_url = pre ++ "event/" ++ eventId ++ post ∧ ends_token post.
Proof.
  induction event_url as [|c s IH]; [done|].
  intros H. cbn [match_event] in H.
  assert (match_event s = Some eventId →
          eventId ≠ "" ∧ (slash ∉ chars eventId) ∧
          ∃ pre post,
            String c s = pre ++ "event/" ++ eventId ++ post ∧
            ends_token post) as Hlater.
  { intros H'. destruct (IH H') as (Hne & Hno & pre & post & -> & Hpost).
    split; [done|]. split; [done|]. by exists (String c pre), post. }
  destruct (drop_prefix "event/" (String c s)) as [rest|] eqn:Hpre;
    [|by auto].
  destruct (take_non_slash rest) as [|t ts] eqn:Htok; [by auto|].
  injection H as <-. apply drop_prefix_Some in Hpre.
  destruct (take_non_slash_spec rest) as (Hno & post & Hrest & Hpost).
  rewrite Htok in Hno, Hrest. split; [done|]. split; [done|].
  exists "", post. split; [|done]. by rewrite Hpre, Hrest.
Qed.

(** X7. Every reference in which [event/] is followed by a character other
    than a slash is accepted; so a rejected reference holds no such
    place. *)
Theorem X7_match_event_complete (pre rest : string) (c : ascii) :
  c ≠ slash →
  is_Some (match_event (pre ++ "event/" ++ String c rest)).
Proof.
  intros Hc. induction pre as [|a pre IH].
  - change ("" ++ "event/" ++ String c rest)
      with (String "e" ("vent/" ++ String c rest)).
    cbn [match_event].
    change (String "e" ("vent/" ++ String c rest))
      with ("event/" ++ String c rest).
    rewrite drop_prefix_app. cbn [take_non_slash].
    destruct (Ascii.eqb_spec c "/"); [done|]. eauto.
  - change (String a pre ++ "event/" ++ String c rest)
      with (String a (pre ++ "event/" ++ String c rest)).
    cbn [match_event].
    destruct (drop_prefix _ _) as [r|]; [|done].
    destruct (take_non_slash r); [done|eauto].
Qed.

End EventReference.

Lemma X6_match_event_sound_witness :
  "E1" ≠ "" ∧ (slash ∉ chars "E1").
Proof.
  destruct (X6_match_event_sound
              "https://tv.dartconnect.com/event/E1/matches" "E1" eq_refl)
    as (H1 & H2 & _).
  by split.
Defined.

Lemma X7_match_event_complete_witness :
  is_Some (match_event ("tv/" ++ "event/" ++ String "E" "1/x")).
Proof. apply X7_match_event_complete. discriminate. Defined.

(** ** Discovery *)


(** ** What a run calls, writes and tallies *)

Section Trace.

Variable env : Env.
Variables user ev : string.

Lemma written_app (cs1 cs2 : list Call) :
  written env (cs1 ++ cs2) = (written env cs1 ++ written env cs2)%list.
Proof. apply omap_app. Qed.

Lemma fetched_players_app (cs1 cs2 : list Call) :
  fetched_players (cs1 ++ cs2)
  = (fetched_players cs1 ++ fetched_players cs2)%list.
Proof. apply omap_app. Qed.

Lemma traced_ret {A} (P : Call → Prop) (a : A) : traced env P (ret a).
Proof. intros st. exists []. simpl. by rewrite app_nil_r. Qed.

Lemma traced_throw {A} (P : Call → Prop) (msg : string) :
  traced env P (@throw A msg).
Proof. intros st. exists []. simpl. by rewrite app_nil_r. Qed.

Lemma traced_incr (P : Call → Prop) : traced env P (modify incr_successful).
Proof. intros st. exists []. simpl. by rewrite app_nil_r. Qed.

Lemma traced_bind {A B} (P : Call → Prop) (c : Exec A) (k : A → Exec B) :
  traced env P c → (∀ a, traced env P (k a)) → traced env P (bind c k).
Proof.
  intros Hc Hk st. unfold bind.
  destruct (Hc st) as (cs1 & Hcs1 & Ht1 & Hs1 & HP1).
  destruct (c st) as [st' [e|a]]; simpl in *; [by exists cs1|].
  destruct (Hk a st') as (cs2 & Hcs2 & Ht2 & Hs2 & HP2).
  exists (cs1 ++ cs2)%list. rewrite written_app, upserts_app, foldl_app.
  rewrite Hcs2, Hcs1, Ht2, Ht1, Hs2, Hs1, app_assoc.
  repeat split; try done. by apply Forall_app.
Qed.

(** [fetch_document] logs its call and changes nothing else. *)
Lemma fetch_document_state {A} (c : Call) (r : Fetched (Document A))
    (what : string) (st : State) :
  (fetch_document c r what st).1 = with_world (log_call c) st.
Proof.
  unfold fetch_document, bind. simpl.
  destruct r as [msg|status [|msg|props]];
    try destruct (negb (ok status)); done.
Qed.

Lemma traced_fetch_counts {A} (P : Call → Prop) (matchId : string)
    (r : Fetched (Document A)) (what : string) :
  P (FetchCounts matchId) →
  traced env P (fetch_document (FetchCounts matchId) r what).
Proof.
  intros HP st. exists [FetchCounts matchId].
  rewrite fetch_document_state. simpl. by repeat constructor.
Qed.

Lemma traced_process_player matchId counts i player :
  traced env (later_call user ev matchId)
    (process_player env user ev matchId counts i player).
Proof.
  intros st. destruct player as [p|]; simpl.
  2: { exists []. simpl. by rewrite app_nil_r. }
  exists [Upsert (build_record user ev matchId counts i p)].
  unfold bind, written. simpl.
  destruct (upsert_error env (build_record user ev matchId counts i p));
    simpl; by repeat constructor.
Qed.

Lemma traced_process_players matchId counts players :
  ∀ i, traced env (later_call user ev matchId)
         (process_players env user ev matchId counts i players).
Proof.
  induction players as [|player rest IH]; intros i; simpl.
  - apply traced_ret.
  - apply traced_bind; [apply traced_process_player|]. intros _. apply IH.
Qed.

(** One turn of the loop: the players page of the match is fetched first,
    every later call is for the same match, user and event, and the table
    and the tallies take exactly the accepted rows. *)
Lemma match_step_trace (matchId : string) (st : State) :
  ∃ cs,
    calls (world (match_step env user ev st matchId))
    = (calls (world st) ++ FetchPlayers matchId :: cs)%list ∧
    table (world (match_step env user ev st matchId))
    = upserts (written env cs) (table (world st)) ∧
    playerSummary (match_step env user ev st matchId)
    = foldl (tally_row (object_prototype env)) (playerSummary st)
        (written env cs) ∧
    Forall (later_call user ev matchId) cs.
Proof.
  remember (match_step env user ev st matchId) as st' eqn:E.
  unfold match_step, scrape_match in E. unfold bind at 1 in E.
  pose proof (fetch_document_state (FetchPlayers matchId)
                (players_page env matchId) "players" st) as Hst.
  destruct (fetch_document _ _ _ st) as [st1 [e|players]]; simpl in Hst.
  - exists []. by subst.
  - match type of E with
    | context [let (_, _) := ?k st1 in _] =>
        assert (traced env (later_call user ev matchId) k) as Hk
    end.
    { apply traced_bind; [by apply traced_fetch_counts|]. intros counts.
      apply traced_bind; [apply traced_process_players|]. intros _.
      apply traced_incr. }
    destruct (Hk st1) as (cs & Hcs & Ht & Hs & HP). exists cs.
    match type of E with
    | context [let (_, _) := ?k st1 in _] =>
        destruct (k st1) as [st2 [e|u]]
    end; simpl in *; subst; simpl; rewrite Hcs, Ht, Hs; simpl;
      by rewrite <- app_assoc.
Qed.

Lemma later_call_run (matchId : string) (matchIds : list string) (c : Call) :
  matchId ∈ matchIds → later_call user ev matchId c →
  run_call user ev matchIds c.
Proof.
  intros Hin. destruct c; simpl; try done.
  - by intros ->.
  - by intros (-> & -> & ->).
Qed.

Lemma fetched_players_later (matchId : string) (cs : list Call) :
  Forall (later_call user ev matchId) cs → fetched_players cs = [].
Proof.
  induction 1 as [|c cs Hc _ IH]; [done|].
  destruct c; simpl in Hc; try done; exact IH.
Qed.

Lemma scrape_matches_trace (matchIds : list string) (st : State) :
  ∃ cs,
    calls (world (scrape_matches env user ev matchIds st))
    = (calls (world st) ++ cs)%list ∧
    table (world (scrape_matches env user ev matchIds st))
    = upserts (written env cs) (table (world st)) ∧
    playerSummary (scrape_matches env user ev matchIds st)
    = foldl (tally_row (object_prototype env)) (playerSummary st)
        (written env cs) ∧
    fetched_players cs = matchIds ∧
    Forall (run_call user ev matchIds) cs.
Proof.
  induction matchIds as [|matchId rest IH] using rev_ind.
  - exists []. simpl. by rewrite app_nil_r.
  - rewrite scrape_matches_snoc.
    destruct IH as (cs1 & Hc1 & Ht1 & Hs1 & Hf1 & HP1).
    destruct (match_step_trace matchId
                (scrape_matches env user ev rest st))
      as (cs2 & Hc2 & Ht2 & Hs2 & HP2).
    exists (cs1 ++ FetchPlayers matchId :: cs2)%list.
    rewrite Hc2, Hc1, Ht2, Ht1, Hs2, Hs1.
    rewrite written_app, upserts_app, foldl_app, fetched_players_app, Hf1.
    rewrite <- app_assoc.
    split; [done|]. split; [done|]. split; [done|]. split.
    + change (fetched_players (FetchPlayers matchId :: cs2))
        with (matchId :: fetched_players cs2).
      by rewrite (fetched_players_later matchId cs2).
    + apply Forall_app. split.
      * eapply Forall_impl; [exact HP1|]. intros c.
        destruct c; simpl; try done; rewrite elem_of_app; tauto.
      * constructor.
        { simpl. apply elem_of_app. right. by apply list_elem_of_singleton. }
        eapply Forall_impl; [exact HP2|]. intros c.
        apply later_call_run, elem_of_app. right.
        by apply list_elem_of_singleton.
Qed.

End Trace.

(** ** How a request ends *)

Local Ltac ends_early cs :=
  left; exists cs; eexists; split;
  [ unfold log_call; simpl; rewrite <- ?app_assoc, ?app_nil_r; reflexivity
  | split; [simpl; tauto|repeat constructor] ].

(** A request ends early, with the store as it was and no call for any
    match, or it runs the loop over the discovered matches. *)
Lemma handler_cases (env : Env) (req : Request) (w : World) :
  (∃ cs resp,
     handler env req w
     = ({| table := table w; calls := (calls w ++ cs)%list |}, resp) ∧
     (resp = Preflight ∨ is_failure resp) ∧
     Forall (λ c, is_downstream c = false) cs) ∨
  (∃ b user eventId status data,
     String.eqb (method req) "OPTIONS" = false ∧
     body req = inr b ∧
     missing (req_event_url b) || missing (req_event_name b) = false ∧
     get_user env = Some user ∧
     match_event (default "" (req_event_url b)) = Some eventId ∧
     api2 env eventId = Http status (inr data) ∧
     ok status = true ∧
     collect_match_ids data ≠ [] ∧
     let st := scrape_matches env user (default "" (req_event_name b))
                 (collect_match_ids data)
                 (init_state (log_call (Discover eventId)
                                (log_call GetUser w))) in
     handler env req w
     = (world st, Success (summary_of (collect_match_ids data) st))).
Proof.
  unfold handler. destruct w as [t c].
  destruct (String.eqb (method req) "OPTIONS") eqn:Em;
    [ends_early (@nil Call)|].
  destruct (body req) as [msg|b] eqn:Eb; [ends_early (@nil Call)|].
  destruct (missing (req_event_url b) || missing (req_event_name b)) eqn:Ems;
    [ends_early (@nil Call)|].
  destruct (get_user env) as [user|] eqn:Eu; [|ends_early [GetUser]].
  destruct (match_event _) as [eventId|] eqn:Eme; [|ends_early [GetUser]].
  unfold scrape_event.
  destruct (api2 env eventId) as [msg|status payload] eqn:Eapi;
    [ends_early [GetUser; Discover eventId]|].
  destruct (negb (ok status)) eqn:Eok;
    [ends_early [GetUser; Discover eventId]|].
  destruct payload as [msg|data]; [ends_early [GetUser; Discover eventId]|].
  destruct (collect_match_ids data) as [|matchId matchIds] eqn:Eids;
    [ends_early [GetUser; Discover eventId]|].
  right. exists b, user, eventId, status, data.
  rewrite Eids. apply negb_false_iff in Eok. by repeat split.
Qed.

(** X9. A request that is not answered with a run summary has changed
    nothing: the table is as before, no players page or counts page was
    fetched and no upsert was tried; the answer is the preflight reply or
    an error of status 400, 401 or 500. *)
Theorem X9_failed_request_changes_nothing (env : Env) (req : Request)
    (w : World) :
  (∀ s, (handler env req w).2 ≠ Success s) →
  table (handler env req w).1 = table w ∧
  (∃ cs, calls (handler env req w).1 = (calls w ++ cs)%list ∧
         Forall (λ c, is_downstream c = false) cs) ∧
  ((handler env req w).2 = Preflight ∨ is_failure (handler env req w).2).
Proof.
  intros Hfail.
  destruct (handler_cases env req w)
    as [(cs & resp & H & Hresp & Hcs)|(b & u & e & st & d & H)].
  - rewrite H. simpl. eauto.
  - destruct H as (_ & _ & _ & _ & _ & _ & _ & _ & H). cbv zeta in H.
    rewrite H in Hfail. exfalso. eapply Hfail. reflexivity.
Qed.

(** X10. A run summary is answered only to an authenticated caller whose
    request names an event and holds an event reference, after a
    discovery that answered with a success status and at least one match;
    [total_matches] is the number of discovered matches, so it is never
    0. *)
Theorem X10_summary_requires (env : Env) (req : Request) (w w' : World)
    (s : RunSummary) :
  handler env req w = (w', Success s) →
  ∃ b user eventId status data,
    body req = inr b ∧
    missing (req_event_url b) = false ∧
    missing (req_event_name b) = false ∧
    get_user env = Some user ∧
    match_event (default "" (req_event_url b)) = Some eventId ∧
    api2 env eventId = Http status (inr data) ∧ ok status = true ∧
    total_matches s = length (collect_match_ids data) ∧
    (0 < total_matches s)%nat.
Proof.
  intros Hs.
  destruct (handler_cases env req w)
    as [(cs & resp & H & Hresp & Hcs)|(b & u & e & st & d & H)].
  - rewrite H in Hs. injection Hs as _ ->. by destruct Hresp.
  - destruct H as (_ & Hb & Hm & Hu & He & Ha & Hok & Hne & H).
    cbv zeta in H. rewrite H in Hs. injection Hs as _ <-.
    apply orb_false_iff in Hm as [Hm1 Hm2].
    exists b, u, e, st, d. simpl. repeat split; try done.
    destruct (collect_match_ids d); [done|simpl; lia].
Qed.

Lemma X9_failed_request_changes_nothing_witness :
  table (handler Sample.env_no_match Sample.request Sample.empty_world).1
  = [].
Proof.
  apply (X9_failed_request_changes_nothing Sample.env_no_match
           Sample.request Sample.empty_world).
  intros s. vm_compute. discriminate.
Defined.

Lemma X10_summary_requires_witness :
  ∃ w' s,
    handler Sample.env Sample.request Sample.empty_world = (w', Success s) ∧
    (0 < total_matches s)%nat.
Proof.
  eexists _, _. split; [vm_compute; reflexivity|].
  destruct (X10_summary_requires Sample.env Sample.request
              Sample.empty_world _ _ ltac:(vm_compute; reflexivity))
    as (b & u & e & st & d & _ & _ & _ & _ & _ & _ & _ & _ & H).
  exact H.
Defined.

(** ** The loop over the matches *)

Section Loop.

Variable env : Env.
Variables user ev : string.

(** X11. The matches are processed one after the other in the order of
    discovery, each exactly once: the players pages fetched by the loop
    are, in call order, the list of match identifiers. *)
Theorem X11_matches_in_discovery_order (matchIds : list string)
    (st : State) :
  ∃ cs,
    calls (world (scrape_matches env user ev matchIds st))
    = (calls (world st) ++ cs)%list ∧
    fetched_players cs = matchIds.
Proof.
  destruct (scrape_matches_trace env user ev matchIds st)
    as (cs & Hc & _ & _ & Hf & _).
  by exists cs.
Qed.

(** X12. Every row that the loop tries to write is filed under the user
    and the event name of the run and under one of its match identifiers,
    and every page it fetches is a page of one of these matches. *)
Theorem X12_calls_stay_in_scope (matchIds : list string) (st : State) :
  ∃ cs,
    calls (world (scrape_matches env user ev matchIds st))
    = (calls (world st) ++ cs)%list ∧
    (∀ r, Upsert r ∈ cs →
          user_id r = user ∧ event_name r = ev ∧ match_id r ∈ matchIds) ∧
    (∀ m, FetchPlayers m ∈ cs ∨ FetchCounts m ∈ cs → m ∈ matchIds).
Proof.
  destruct (scrape_matches_trace env user ev matchIds st)
    as (cs & Hc & _ & _ & _ & HP).
  exists cs. split; [done|]. rewrite Forall_forall in HP. split.
  - intros r Hr. exact (HP _ Hr).
  - intros m [Hm|Hm]; exact (HP _ Hm).
Qed.

Lemma rows_of_cons (n : string) (r : Row) (rows : list Row) :
  rows_of n (r :: rows)
  = if decide (name r = n) then r :: rows_of n rows else rows_of n rows.
Proof. unfold rows_of. by rewrite filter_cons. Qed.

(** The tally of a player after a list of rows. *)
Lemma foldl_tally_row_lookup (inherited : list string) (rows : list Row) :
  ∀ (m : gmap string Tally) (n : string),
    foldl (tally_row inherited) m rows !! n
    = match rows_of n rows with
      | [] => m !! n
      | rs =>
          match m !! n with
          | Some t =>
              Some (mkTally (match_count t + length rs)
                            (tally_180s t + sum_180s rs))
          | None =>
              if bool_decide (n ∈ inherited) then None
              else Some (mkTally (length rs) (sum_180s rs))
          end
      end.
Proof.
  induction rows as [|r rows IH]; intros m n; [done|].
  simpl. rewrite IH, rows_of_cons. unfold tally_row, add_tally.
  destruct (decide (name r = n)) as [<-|Hne].
  - destruct (m !! name r) as [t|] eqn:Hm.
    + rewrite lookup_insert_eq.
      destruct (rows_of (name r) rows) as [|r' rs]; simpl;
        do 2 f_equal; lia.
    + case_bool_decide as Hin.
      * rewrite Hm. by destruct (rows_of (name r) rows).
      * rewrite lookup_insert_eq.
        destruct (rows_of (name r) rows) as [|r' rs]; simpl;
          do 2 f_equal; lia.
  - destruct (m !! name r) as [t|] eqn:Hm.
    + by rewrite lookup_insert_ne.
    + case_bool_decide; [done|]. by rewrite lookup_insert_ne.
Qed.

(** The table and the tallies after the loop, from the calls it made. *)
Lemma scrape_matches_tallies (matchIds : list string) (w : World) :
  let st := scrape_matches env user ev matchIds (init_state w) in
  ∃ cs,
    calls (world st) = (calls w ++ cs)%list ∧
    table (world st) = upserts (written env cs) (table w) ∧
    ∀ n, playerSummary st !! n
         = match rows_of n (written env cs) with
           | [] => None
           | rs =>
               if bool_decide (n ∈ object_prototype env) then None
               else Some (mkTally (length rs) (sum_180s rs))
           end.
Proof.
  cbv zeta.
  destruct (scrape_matches_trace env user ev matchIds (init_state w))
    as (cs & Hc & Ht & Hs & _ & _).
  exists cs. split; [done|]. split; [done|]. intros n.
  rewrite Hs, foldl_tally_row_lookup. simpl. by rewrite lookup_empty.
Qed.

(** X13. After the loop the table holds the rows that the store accepted,
    upserted in call order, and the tallies of [playerSummary] account for
    exactly these rows, also for those of a match that failed later on: a
    player has an entry if and only if a row of theirs was written and
    their name is not one that every object inherits ([constructor],
    [toString], ...), with the number of these rows as [match_count] and
    the sum of their [count_180s]. A player with an inherited name never
    gets an entry. *)
Theorem X13_summary_accounts_for_written_rows (matchIds : list string)
    (w : World) :
  let st := scrape_matches env user ev matchIds (init_state w) in
  ∃ cs,
    calls (world st) = (calls w ++ cs)%list ∧
    table (world st) = upserts (written env cs) (table w) ∧
    ∀ n, playerSummary st !! n
         = match rows_of n (written env cs) with
           | [] => None
           | rs =>
               if bool_decide (n ∈ object_prototype env) then None
               else Some (mkTally (length rs) (sum_180s rs))
           end.
Proof. apply scrape_matches_tallies. Qed.

(** X14. If the players page or the counts page of a match cannot be
    fetched and parsed, the match is counted as failed and nothing of it
    is written or tallied; the counts page is fetched only after the
    players page was parsed. *)
Theorem X14_page_failure_writes_nothing (matchId : string) (st : State) :
  page_ok (players_page env matchId) = None ∨
  page_ok (counts_page env matchId) = None →
  let st' := match_step env user ev st matchId in
  table (world st') = table (world st) ∧
  playerSummary st' = playerSummary st ∧
  successful st' = successful st ∧ failed st' = S (failed st) ∧
  calls (world st')
  = (calls (world st)
     ++ FetchPlayers matchId
        :: match page_ok (players_page env matchId) with
           | Some _ => [FetchCounts matchId]
           | None => []
           end)%list.
Proof.
  intros Hfail.
  remember (match_step env user ev st matchId) as st' eqn:E.
  unfold match_step, scrape_match, bind, fetch_document, modify in E.
  simpl in E. unfold page_ok in *.
  destruct (players_page env matchId) as [m1|s1 [|m1|ps]];
    try (subst; done);
    destruct (ok s1); simpl in E; try (subst; done).
  destruct Hfail as [Hfail|Hfail]; [done|].
  destruct (counts_page env matchId) as [m2|s2 [|m2|cs]];
    try (subst; simpl; by rewrite <- app_assoc);
    destruct (ok s2); simpl in E; try done;
    subst; simpl; by rewrite <- app_assoc.
Qed.

(** X15. The error list names the failed matches in processing order: its
    entries are built from a list of (match id, message) pairs whose ids
    form a subsequence of the match identifiers, one pair per failed
    match. *)
Theorem X15_errors_in_processing_order (matchIds : list string)
    (st : State) :
  let st' := scrape_matches env user ev matchIds st in
  ∃ failures : list (string * string),
    errors st'
    = (errors st ++ ((λ f, error_entry (fst f) (snd f)) <$> failures))%list ∧
    sublist (failures.*1) matchIds ∧
    failed st' = (failed st + length failures)%nat.
Proof.
  cbv zeta. revert st. induction matchIds as [|matchId rest IH]; intros st.
  - exists []. simpl. rewrite app_nil_r. split; [done|]. split; [done|lia].
  - rewrite scrape_matches_cons.
    destruct (IH (match_step env user ev st matchId))
      as (fs & He & Hsub & Hf).
    destruct (match_step_counts env user ev st matchId)
      as [(_ & Hf' & He')|(_ & Hf' & msg & He')].
    + exists fs. rewrite He, Hf, He', Hf'. split; [done|].
      split; [by apply sublist_cons|done].
    + exists ((matchId, msg) :: fs). rewrite He, Hf, He', Hf'.
      csimpl. rewrite <- app_assoc. split; [done|].
      split; [by apply sublist_skip|lia].
Qed.

End Loop.

Lemma X14_page_failure_writes_nothing_witness :
  table (world (match_step Sample.env "u1" "Event 1"
                  (init_state Sample.empty_world) "m2")) = [].
Proof.
  apply (X14_page_failure_writes_nothing Sample.env "u1" "Event 1" "m2"
           (init_state Sample.empty_world)).
  left. reflexivity.
Defined.

(** ** The stats function *)

Section StatsBoard.

Import StatsFunction.

Lemma stats_handler_leaderboard (env : StatsEnv) (req : StatsRequest)
    (board : Board) :
  stats_handler env req = Leaderboard board →
  error (all_players env) = None ∧
  board_players board
  = imap format_player (default [] (data (all_players env))) ∧
  stats board = board_stats (board_players board).
Proof.
  unfold stats_handler.
  destruct (String.eqb (sr_method req) "OPTIONS"); [done|].
  assert (leaderboard_reply env = Leaderboard board →
          error (all_players env) = None ∧
          board_players board
          = imap format_player (default [] (data (all_players env))) ∧
          stats board = board_stats (board_players board)) as Hreply.
  { unfold leaderboard_reply. destruct (error (all_players env)); [done|].
    by intros [= <-]. }
  destruct (sr_player req) as [[|c n]|]; [exact Hreply| |exact Hreply].
  by destruct (error (player_by_name env (String c n))),
       (data (player_by_name env (String c n))).
Qed.

(** X16. A request without a [player] parameter (or with an empty one) is
    answered with the leaderboard whenever the query for the players
    reports no error, and with the 500 "Error fetching stats" when it
    reports one. A query that reports no error and returns no data gives
    the empty leaderboard, with 0 as [total_players], not an error. Every
    leaderboard reply lists the players in the order in which the store
    returned the rows and ranks them 1, 2, 3, ... in that order. *)
Theorem X16_board_ranks_follow_query_order (env : StatsEnv)
    (req : StatsRequest) :
  (String.eqb (sr_method req) "OPTIONS" = false →
   sr_player req = None ∨ sr_player req = Some "" →
   (∀ e, error (all_players env) = Some e →
         stats_handler env req = StatsError 500 "Error fetching stats") ∧
   (error (all_players env) = None →
    ∃ board,
      stats_handler env req = Leaderboard board ∧
      (data (all_players env) = None →
       board_players board = [] ∧
       bs_total_players (stats board) = 0%nat))) ∧
  (∀ board,
     stats_handler env req = Leaderboard board →
     let rows := default [] (data (all_players env)) in
     bp_rank <$> board_players board = seq 1 (length rows) ∧
     bp_name <$> board_players board = pr_name <$> rows).
Proof.
  split.
  - intros Hm Hp.
    assert (stats_handler env req = leaderboard_reply env) as ->.
    { unfold stats_handler. rewrite Hm. by destruct Hp as [->| ->]. }
    unfold leaderboard_reply. split.
    + by intros e ->.
    + intros ->. eexists. split; [done|]. by intros ->.
  - intros board H. apply stats_handler_leaderboard in H as (_ & -> & _).
    cbv zeta. set (rows := default [] _). split.
    + apply list_eq. intros i.
      rewrite list_lookup_fmap, list_lookup_imap.
      destruct (rows !! i) as [r|] eqn:Hi; simpl.
      * rewrite lookup_seq_lt by (by eapply lookup_lt_Some).
        f_equal. lia.
      * by rewrite lookup_seq_ge by (by apply lookup_ge_None).
    + apply list_eq. intros i.
      rewrite !list_lookup_fmap, list_lookup_imap.
      by destruct (rows !! i).
Qed.

Lemma foldl_add_sum {A} (f : A → Z) (l : list A) :
  ∀ acc, foldl (λ sum p, sum + f p) acc l
         = acc + foldr (λ p sum, f p + sum) 0 l.
Proof.
  induction l as [|x l IH]; intros acc; simpl; [lia|]. rewrite IH. lia.
Qed.

Lemma int_or_zero_default (x : option Z) : int_or_zero x = default 0 x.
Proof. destruct x as [v|]; simpl; [|done]. by destruct (Z.eqb_spec v 0). Qed.

(** X17. The figures of the leaderboard reply agree with its list:
    [total_players] is the number of rows, [total_legs_played] and
    [total_180s] are the sums of these columns over the rows with [null]
    counted as 0, and [qualified_players] never exceeds
    [total_players]. *)
Theorem X17_board_stats_agree_with_rows (env : StatsEnv)
    (req : StatsRequest) (board : Board) :
  stats_handler env req = Leaderboard board →
  let rows := default [] (data (all_players env)) in
  bs_total_players (stats board) = length rows ∧
  bs_total_legs_played (stats board)
  = foldr (λ r sum, default 0 (pr_legs_played r) + sum) 0 rows ∧
  bs_total_180s (stats board)
  = foldr (λ r sum, default 0 (pr_total_180s r) + sum) 0 rows ∧
  (bs_qualified_players (stats board) ≤ bs_total_players (stats board))%nat.
Proof.
  intros H. apply stats_handler_leaderboard in H as (_ & Hp & ->).
  rewrite Hp. cbv zeta. set (rows := default [] _). simpl.
  rewrite length_imap. split; [done|].
  assert (∀ (f : BoardPlayer → Z) (g : PlayerRow → Z),
            (∀ i r, f (format_player i r) = g r) →
            foldr (λ p sum, f p + sum) 0 (imap format_player rows)
            = foldr (λ r sum, g r + sum) 0 rows) as Hsum.
  { intros f g Hfg. generalize format_player, Hfg. clear.
    induction rows as [|r rows IH]; intros fp Hfg; simpl; [done|].
    rewrite Hfg. f_equal. apply IH. intros i r'. apply Hfg. }
  rewrite !foldl_add_sum. split; [|split].
  - rewrite (Hsum _ (λ r, default 0 (pr_legs_played r))); [lia|].
    intros. apply int_or_zero_default.
  - rewrite (Hsum _ (λ r, default 0 (pr_total_180s r))); [lia|].
    intros. apply int_or_zero_default.
  - rewrite <- (length_imap format_player rows). apply length_filter.
Qed.

End StatsBoard.

(** A store without rows: the query returns neither data nor an error, and
    the reply is the empty leaderboard. *)
Lemma X16_board_ranks_follow_query_order_witness :
  ∃ board,
    StatsFunction.stats_handler
      (StatsFunction.mkStatsEnv
         (λ _, StatsFunction.mkQueryResult None (Some "none"))
         (StatsFunction.mkQueryResult None None)
         (StatsFunction.mkQueryResult None None))
      (StatsFunction.mkStatsRequest "GET" None)
    = StatsFunction.Leaderboard board ∧
    (StatsFunction.board_players board = [] ∧
     StatsFunction.bs_total_players (StatsFunction.stats board) = 0%nat).
Proof.
  destruct (proj1 (X16_board_ranks_follow_query_order
                     (StatsFunction.mkStatsEnv
                        (λ _, StatsFunction.mkQueryResult None (Some "none"))
                        (StatsFunction.mkQueryResult None None)
                        (StatsFunction.mkQueryResult None None))
                     (StatsFunction.mkStatsRequest "GET" None))
              eq_refl (or_introl eq_refl)) as [_ H].
  destruct (H eq_refl) as (board & Hreply & Hempty).
  exists board. split; [exact Hreply|]. exact (Hempty eq_refl).
Defined.

Lemma X17_board_stats_agree_with_rows_witness :
  ∃ board,
    StatsFunction.stats_handler
      (StatsFunction.mkStatsEnv
         (λ _, StatsFunction.mkQueryResult None (Some "none"))
         (StatsFunction.mkQueryResult
            (Some [StatsFunction.mkPlayerRow (JStr "A") JNull (Some 5)
                     JNull None JNull JNull JNull JNull (JBool true)]) None)
         (StatsFunction.mkQueryResult None None))
      (StatsFunction.mkStatsRequest "GET" None)
    = StatsFunction.Leaderboard board ∧
    StatsFunction.bs_total_legs_played (StatsFunction.stats board) = 5.
Proof.
  eexists. split; [reflexivity|].
  eapply (X17_board_stats_agree_with_rows
            (StatsFunction.mkStatsEnv
               (λ _, StatsFunction.mkQueryResult None (Some "none"))
               (StatsFunction.mkQueryResult
                  (Some [StatsFunction.mkPlayerRow (JStr "A") JNull (Some 5)
                           JNull None JNull JNull JNull JNull (JBool true)])
                  None)
               (StatsFunction.mkQueryResult None None))
            (StatsFunction.mkStatsRequest "GET" None) _ eq_refl).
Defined.

(** ** The overlay page *)

(** X18. The age shown for the last update: a time less than a minute
    back, or in the future, reads "Just now"; from one minute up to one
    hour it reads "<n> minute(s) ago" with n the whole minutes, between 1
    and 59, and "minute" in the singular exactly for n = 1; from one hour
    on the date itself is shown. *)
Theorem X18_formatDateTime_labels (toLocaleString : option Z → string)
    (now d : Z) :
  let label := Overlay.formatDateTime toLocaleString now (Some d) in
  (now - d < 60000 → label = "Just now") ∧
  (60000 ≤ now - d < 3600000 →
     ∃ n, n = (now - d) / 60000 ∧ 1 ≤ n ≤ 59 ∧
          label = pretty n ++ " minute" ++ (if n =? 1 then "" else "s")
                    ++ " ago") ∧
  (3600000 ≤ now - d → label = toLocaleString (Some d)).
Proof.
  cbv zeta. unfold Overlay.formatDateTime.
  split; [|split].
  - intros H. by rewrite (proj2 (Z.ltb_lt _ _) H).
  - intros [H1 H2].
    rewrite (proj2 (Z.ltb_ge _ _) H1), (proj2 (Z.ltb_lt _ _) H2).
    exists ((now - d) / 60000). split; [done|].
    assert (1 ≤ (now - d) / 60000 ≤ 59) as Hn.
    { split.
      - apply Z.div_le_lower_bound; lia.
      - apply Z.lt_succ_r, Z.div_lt_upper_bound; lia. }
    split; [done|].
    destruct (Z.eqb_spec ((now - d) / 60000) 1) as [->|Hne]; [done|].
    by rewrite (proj2 (Z.ltb_lt 1 _)) by lia.
  - intros H.
    rewrite (proj2 (Z.ltb_ge _ _)) by lia.
    by rewrite (proj2 (Z.ltb_ge _ _) H).
Qed.

Lemma X18_formatDateTime_labels_witness :
  Overlay.formatDateTime (λ _, "Jan 1, 12:00 AM") 1000 (Some 5000)
  = "Just now".
Proof.
  apply (X18_formatDateTime_labels (λ _, "Jan 1, 12:00 AM") 1000 5000).
  lia.
Defined.

(** ** What a successful match means *)

Section SuccessfulMatch.

Variable env : Env.
Variables user ev matchId : string.

(** The loop over the players returns only if every entry is a player
    whose row the store accepted; the rows are then all written. *)
Lemma process_players_returns (counts : Counts)
    (players : list (option Player)) :
  ∀ (i : nat) (st st' : State),
    process_players env user ev matchId counts i players st = (st', inr tt) →
    ∃ ps,
      players = Some <$> ps ∧
      Forall (λ r, upsert_error env r = None)
             (built_rows user ev matchId counts i ps) ∧
      table (world st')
      = upserts (built_rows user ev matchId counts i ps) (table (world st)).
Proof.
  induction players as [|player rest IH]; intros i st st' H.
  - injection H as <-. by exists [].
  - simpl in H. unfold bind at 1 in H.
    destruct player as [q|]; [|done]. simpl in H.
    unfold bind at 1 in H. simpl in H.
    destruct (upsert_error env (build_record user ev matchId counts i q))
      eqn:Hq; [done|].
    unfold bind at 1 in H. simpl in H.
    apply IH in H as (ps & -> & Hacc & Ht).
    exists (q :: ps). split; [done|]. split; [by constructor|].
    by rewrite Ht.
Qed.

(** X19. A match is counted as successful only when both of its pages
    were fetched and parsed, every entry of its roster is a player and the
    store accepted the row of each of them; the table then holds all
    these rows. *)
Theorem X19_successful_match_fully_written (st : State) :
  let st' := match_step env user ev st matchId in
  successful st' = S (successful st) →
  ∃ ps counts,
    page_ok (players_page env matchId) = Some (Some <$> ps) ∧
    page_ok (counts_page env matchId) = Some counts ∧
    Forall (λ r, upsert_error env r = None)
           (built_rows user ev matchId counts 0 ps) ∧
    table (world st')
    = upserts (built_rows user ev matchId counts 0 ps) (table (world st)).
Proof.
  cbv zeta. intros Hs.
  remember (match_step env user ev st matchId) as st' eqn:E.
  unfold match_step in E.
  destruct (counts_scrape_match env user ev matchId st) as (_ & _ & Hsucc).
  destruct (scrape_match env user ev matchId st) as [st1 [e|[]]] eqn:Hm;
    simpl in Hsucc.
  { subst st'. simpl in Hs. lia. }
  subst st'. clear Hs Hsucc.
  unfold scrape_match, bind, fetch_document, modify in Hm. simpl in Hm.
  unfold page_ok.
  destruct (players_page env matchId) as [m1|s1 [|m1|players]];
    try done; destruct (ok s1); simpl in Hm; try done.
  destruct (counts_page env matchId) as [m2|s2 [|m2|counts]];
    try done; destruct (ok s2); simpl in Hm; try done.
  destruct (process_players env user ev matchId counts 0 players _)
    as [st2 [e|[]]] eqn:Hp; [done|].
  injection Hm as <-.
  apply process_players_returns in Hp as (ps & -> & Hacc & Ht).
  exists ps, counts. simpl in *. by rewrite Ht.
Qed.

End SuccessfulMatch.

Lemma X19_successful_match_fully_written_witness :
  ∃ ps counts,
    page_ok (players_page Sample.env "m1") = Some (Some <$> ps) ∧
    page_ok (counts_page Sample.env "m1") = Some counts.
Proof.
  destruct (X19_successful_match_fully_written Sample.env "u1" "Event 1"
              "m1" (init_state Sample.empty_world) eq_refl)
    as (ps & counts & H1 & H2 & _).
  by exists ps, counts.
Defined.

(** ** The players of the summary *)

Lemma rows_of_nil_iff (n : string) (rows : list Row) :
  rows_of n rows = [] ↔ n ∉ name <$> rows.
Proof.
  induction rows as [|r rows IH]; csimpl.
  - split; [intros _; apply not_elem_of_nil|done].
  - rewrite rows_of_cons, not_elem_of_cons.
    destruct (decide (name r = n)) as [Hn|Hn].
    + split; [done|]. by intros [? _].
    + rewrite IH. split; [by split|by intros [_ ?]].
Qed.

(** X20. [total_players] of the summary is the number of distinct players
    of whom the run wrote at least one row and whose name is not one that
    every object inherits ([constructor], [toString], ...), and [players]
    has an entry for exactly these players. *)
Theorem X20_total_players_counts_written (env : Env) (req : Request)
    (w w' : World) (s : RunSummary) :
  handler env req w = (w', Success s) →
  ∃ cs,
    calls w' = (calls w ++ cs)%list ∧
    table w' = upserts (written env cs) (table w) ∧
    (∀ n, is_Some (players s !! n) ↔
          n ∈ name <$> written env cs ∧ n ∉ object_prototype env) ∧
    total_players s
    = length (remove_dups
                (filter (λ n, n ∉ object_prototype env)
                        (name <$> written env cs))).
Proof.
  intros Hs.
  destruct (handler_cases env req w)
    as [(cs & resp & H & Hresp & Hcs)|(b & u & e & st & d & H)].
  { rewrite H in Hs. injection Hs as _ ->. by destruct Hresp. }
  destruct H as (_ & _ & _ & _ & _ & _ & _ & _ & H). cbv zeta in H.
  rewrite H in Hs. injection Hs as <- <-. clear H.
  destruct (scrape_matches_tallies env u
              (default "" (req_event_name b)) (collect_match_ids d)
              (log_call (Discover e) (log_call GetUser w)))
    as (cs & Hc & Ht & Hl).
  exists (GetUser :: Discover e :: cs).
  change (written env (GetUser :: Discover e :: cs)) with (written env cs).
  split; [rewrite Hc; simpl; by rewrite <- !app_assoc|].
  split; [exact Ht|].
  assert (∀ n, is_Some
                 (playerSummary
                    (scrape_matches env u (default "" (req_event_name b))
                       (collect_match_ids d)
                       (init_state
                          (log_call (Discover e) (log_call GetUser w))))
                  !! n)
               ↔ n ∈ name <$> written env cs ∧ n ∉ object_prototype env)
    as Hdom.
  { intros n. rewrite Hl.
    destruct (rows_of n (written env cs)) as [|r rs] eqn:Hr.
    - apply rows_of_nil_iff in Hr. split; [by intros [? [=]]|].
      by intros [? _].
    - assert (n ∈ name <$> written env cs) as Hin.
      { destruct (decide (n ∈ name <$> written env cs)) as [|Hn]; [done|].
        apply rows_of_nil_iff in Hn. congruence. }
      case_bool_decide as Hp.
      + split; [by intros [? [=]]|]. by intros [_ ?].
      + split; [done|]. eauto. }
  split; [exact Hdom|]. simpl.
  rewrite <- size_dom.
  rewrite <- (size_list_to_set (C := gset string) (remove_dups _))
    by apply NoDup_remove_dups.
  f_equal. apply set_eq. intros n.
  rewrite elem_of_dom, Hdom, elem_of_list_to_set, elem_of_remove_dups.
  rewrite list_elem_of_filter. tauto.
Qed.

(** In a match of a player called [constructor] and of Bob, both rows are
    written and the summary counts Bob only. *)
Lemma X20_total_players_counts_written_witness :
  ∃ w' s,
    handler Sample.env_constructor Sample.request Sample.empty_world
    = (w', Success s) ∧
    total_players s = 1%nat ∧
    keys (table w')
    = [("u1", "Event 1", "m1", "constructor");
       ("u1", "Event 1", "m1", "Bob")] ∧
    ∃ cs,
      calls w' = (calls Sample.empty_world ++ cs)%list ∧
      table w'
      = upserts (written Sample.env_constructor cs)
          (table Sample.empty_world) ∧
      (∀ n, is_Some (players s !! n) ↔
            n ∈ name <$> written Sample.env_constructor cs ∧
            n ∉ object_prototype Sample.env_constructor) ∧
      total_players s
      = length (remove_dups
                  (filter (λ n, n ∉ object_prototype Sample.env_constructor)
                          (name <$> written Sample.env_constructor cs))).
Proof.
  eexists _, _. split; [vm_compute; reflexivity|].
  split; [vm_compute; reflexivity|]. split; [vm_compute; reflexivity|].
  eapply (X20_total_players_counts_written Sample.env_constructor
            Sample.request Sample.empty_world).
  vm_compute. reflexivity.
Defined.

(** ** What a request leaves alone *)

Lemma last_write_None (k : string * string * string * string)
    (rs : list Row) :
  Forall (λ r, row_key r ≠ k) rs → last_write k rs = None.
Proof.
  induction 1 as [|r rs Hr _ IH]; simpl; [done|].
  rewrite IH. case_decide; congruence.
Qed.

Lemma written_elem_of (env : Env) (cs : list Call) (r : Row) :
  r ∈ written env cs → Upsert r ∈ cs.
Proof.
  unfold written. rewrite list_elem_of_omap. intros (c & Hc & Hr).
  destruct c as [| | | |r']; try done.
  destruct (upsert_error env r'); [done|]. by injection Hr as ->.
Qed.

(** X21. A request never deletes a row: every key of the table is still
    there afterwards. And it leaves alone what is not its own: the row
    under any key whose user is not the authenticated caller, or whose
    event name is not the one of the request, is the same before and
    after. *)
Theorem X21_other_rows_untouched (env : Env) (req : Request) (w : World) :
  let w' := (handler env req w).1 in
  (∀ k, k ∈ keys (table w) → k ∈ keys (table w')) ∧
  (∀ u e m n,
     get_user env ≠ Some u ∨
     (∀ b, body req = inr b → req_event_name b ≠ Some e) →
     find_row (u, e, m, n) (table w') = find_row (u, e, m, n) (table w)).
Proof.
  cbv zeta.
  destruct (handler_cases env req w)
    as [(cs & resp & H & _ & _)|(b & user & ev & st & d & H)].
  { rewrite H. by simpl. }
  destruct H as (_ & Hb & Hm & Hu & _ & _ & _ & _ & H). cbv zeta in H.
  rewrite H. simpl. clear H.
  destruct (scrape_matches_trace env user (default "" (req_event_name b))
              (collect_match_ids d)
              (init_state (log_call (Discover ev) (log_call GetUser w))))
    as (cs & _ & Ht & _ & _ & HP).
  rewrite Ht. simpl. split.
  - intros k Hk. apply elem_of_keys_upserts. by right.
  - intros u e m n Hother. rewrite find_row_upserts, last_write_None; [done|].
    apply Forall_forall. intros r Hr Hkey.
    apply written_elem_of in Hr. rewrite Forall_forall in HP.
    destruct (HP _ Hr) as (Hru & Hre & _).
    unfold row_key in Hkey.
    assert (user_id r = u ∧ event_name r = e) as [Hku Hke]
      by (split; congruence).
    destruct Hother as [Hne|Hne]; [congruence|].
    apply (Hne b Hb). apply orb_false_iff in Hm as [_ Hm].
    destruct (req_event_name b) as [x|]; [|done].
    simpl in Hre. congruence.
Qed.

Lemma X21_other_rows_untouched_witness :
  find_row ("u2", "Event 1", "m1", "Alice")
    (table (handler Sample.env Sample.request Sample.empty_world).1)
  = find_row ("u2", "Event 1", "m1", "Alice") (table Sample.empty_world).
Proof.
  apply (X21_other_rows_untouched Sample.env Sample.request
           Sample.empty_world).
  left. discriminate.
Defined.
